(** * Shallow embedding of the ECS core of ninjelda ([code/ecs/ecs.py])

    Python dicts are insertion ordered and the order is observable
    ([Scene.update] walks the buckets' dicts, [get_entities_with] walks the
    entity dict), so dicts are association lists with Python's update
    discipline: assigning an existing key keeps its position, a new key is
    appended, [del] removes it.  Python sets of entities are lists without
    duplicates.  Exceptions are values of [exn]; every operation runs in a
    state-and-exception monad over the world (the component objects' mutable
    fields and the Scene), and an exception leaves the mutations done before
    it in place, as in Python. *)

From Stdlib Require Import ZArith List Bool Lia.
From Stdlib Require Import Sorting.Sorted.
Import ListNotations.

(** ** Python dicts and sets *)

Class EqDec (K : Type) := eq_dec : forall x y : K, {x = y} + {x <> y}.
#[global] Instance EqDec_Z : EqDec Z := Z.eq_dec.
#[global] Instance EqDec_nat : EqDec nat := Nat.eq_dec.

Section PyDict.
Context {K V : Type} `{EqDec K}.

(** [d.get(k)] *)
Fixpoint d_get (d : list (K * V)) (k : K) : option V :=
  match d with
  | [] => None
  | (k', v) :: r => if eq_dec k k' then Some v else d_get r k
  end.

(** [k in d] *)
Definition d_mem (d : list (K * V)) (k : K) : bool :=
  match d_get d k with Some _ => true | None => false end.

Fixpoint d_replace (d : list (K * V)) (k : K) (v : V) : list (K * V) :=
  match d with
  | [] => []
  | (k', v') :: r =>
      if eq_dec k k' then (k', v) :: d_replace r k v
      else (k', v') :: d_replace r k v
  end.

(** [d[k] = v] *)
Definition d_set (d : list (K * V)) (k : K) (v : V) : list (K * V) :=
  if d_mem d k then d_replace d k v else d ++ [(k, v)].

(** [del d[k]] once [k in d] is known *)
Definition d_del (d : list (K * V)) (k : K) : list (K * V) :=
  filter (fun kv => if eq_dec k (fst kv) then false else true) d.

Definition d_keys (d : list (K * V)) : list K := map fst d.
Definition d_values (d : list (K * V)) : list V := map snd d.
End PyDict.

(** [set[Entity]] and [set[int]] *)
Definition s_mem (s : list Z) (x : Z) : bool := existsb (Z.eqb x) s.
Definition s_add (s : list Z) (x : Z) : list Z := if s_mem s x then s else s ++ [x].
Definition s_remove (s : list Z) (x : Z) : list Z := filter (fun y => negb (Z.eqb x y)) s.

(** [set.intersection( *sets)] (never called with no set) *)
Definition set_intersection (sets : list (list Z)) : list Z :=
  match sets with
  | [] => []
  | s :: rest => filter (fun x => forallb (fun t => s_mem t x) rest) s
  end.

(** ** Exceptions, objects and the Scene *)

Inductive exn :=
| MissingEntity | MissingComponent | MissingSystem
| KeyError | IndexError | UnboundLocalError | StopIteration.

Inductive res (A : Type) : Type := Ok (a : A) | Err (x : exn).
Arguments Ok {A} a.
Arguments Err {A} x.

(** An instance attribute: never assigned, [None], or a value. *)
Inductive attr (A : Type) : Type := Unset | NoneV | Val (a : A).
Arguments Unset {A}.
Arguments NoneV {A}.
Arguments Val {A} a.

(** A Component object: its identity and its concrete class
    ([type(component)], which never changes). *)
Record Component := mkComponent { c_ref : nat; c_cls : nat }.

(** The mutable back-reference fields [scene] and [entity] of a Component. *)
Record CompFields := mkFields { f_scene : attr nat; f_entity : attr Z }.

(** A System object: its identity and its concrete class. *)
Record System := mkSystem { s_ref : nat; s_cls : nat }.

Record Scene := mkScene {
  scene_ref : nat;
  _entities : list (Z * list (nat * Component));
  _components : list (nat * list Z);
  _systems : list (Z * list (nat * System));
  _priorities : list Z
}.

Record World := mkWorld {
  heap : list (nat * CompFields);
  scene : Scene
}.

(** [Scene.__init__] *)
Definition new_scene (sid : nat) : Scene := mkScene sid [] [] [] [].
Definition init_world : World := mkWorld [] (new_scene 0).

Definition with_entities es (sc : Scene) : Scene :=
  mkScene (scene_ref sc) es (_components sc) (_systems sc) (_priorities sc).
Definition with_components cs (sc : Scene) : Scene :=
  mkScene (scene_ref sc) (_entities sc) cs (_systems sc) (_priorities sc).
Definition with_systems ss (sc : Scene) : Scene :=
  mkScene (scene_ref sc) (_entities sc) (_components sc) ss (_priorities sc).
Definition with_priorities ps (sc : Scene) : Scene :=
  mkScene (scene_ref sc) (_entities sc) (_components sc) (_systems sc) ps.
Definition map_scene (f : Scene -> Scene) (w : World) : World :=
  mkWorld (heap w) (f (scene w)).

(** ** The state-and-exception monad *)

Definition M (A : Type) := World -> res A * World.

Definition ret {A} (a : A) : M A := fun w => (Ok a, w).
Definition raise {A} (x : exn) : M A := fun w => (Err x, w).
Definition bind {A B} (m : M A) (k : A -> M B) : M B :=
  fun w => match m w with
           | (Ok a, w') => k a w'
           | (Err x, w') => (Err x, w')
           end.
Definition gets {A} (f : World -> A) : M A := fun w => (Ok (f w), w).
Definition modify (f : World -> World) : M unit := fun w => (Ok tt, f w).

Notation "x <- m ;; k" := (bind m (fun x => k))
  (at level 61, m at next level, right associativity).
Notation "m ;; k" := (bind m (fun _ => k)) (at level 61, right associativity).

Fixpoint for_ {A} (l : list A) (body : A -> M unit) : M unit :=
  match l with
  | [] => ret tt
  | x :: r => body x;; for_ r body
  end.

Fixpoint mapM {A B} (f : A -> M B) (l : list A) : M (list B) :=
  match l with
  | [] => ret []
  | x :: r => y <- f x;; ys <- mapM f r;; ret (y :: ys)
  end.

Fixpoint res_map {A B} (f : A -> res B) (l : list A) : res (list B) :=
  match l with
  | [] => Ok []
  | x :: r => match f x with
              | Err e => Err e
              | Ok y => match res_map f r with Ok ys => Ok (y :: ys) | Err e => Err e end
              end
  end.

(** [d[k]] on a plain dict *)
Definition dict_getitem {K V} `{EqDec K} (d : list (K * V)) (k : K) : res V :=
  match d_get d k with Some v => Ok v | None => Err KeyError end.

(** ** Scene internals *)

(** [EntityDict.__getitem__]: [MissingEntity] for an unknown entity. *)
Definition entities_getitem (entity : Z) : M (list (nat * Component)) :=
  fun w => match d_get (_entities (scene w)) entity with
           | Some d => (Ok d, w)
           | None => (Err MissingEntity, w)
           end.

(** [self._entities[entity] = d]; since the inner dicts are shared objects,
    mutating [self._entities[entity]] in place is this assignment too. *)
Definition entities_setitem (entity : Z) d : M unit :=
  modify (map_scene (fun sc => with_entities (d_set (_entities sc) entity d) sc)).

(** [del self._entities[entity]] (plain [dict.__delitem__]). *)
Definition entities_delitem (entity : Z) : M unit :=
  fun w => if d_mem (_entities (scene w)) entity
           then (Ok tt, map_scene (fun sc => with_entities (d_del (_entities sc) entity) sc) w)
           else (Err KeyError, w).

(** [defaultdict(set).__getitem__]: a missing key is stored with an empty set. *)
Definition components_getitem (comp_cls : nat) : M (list Z) :=
  fun w => match d_get (_components (scene w)) comp_cls with
           | Some s => (Ok s, w)
           | None => (Ok [], map_scene (fun sc =>
                         with_components (d_set (_components sc) comp_cls []) sc) w)
           end.

Definition components_setitem (comp_cls : nat) (s : list Z) : M unit :=
  modify (map_scene (fun sc => with_components (d_set (_components sc) comp_cls s) sc)).

(** [self._components[comp_cls].add(entity)] *)
Definition components_add (comp_cls : nat) (entity : Z) : M unit :=
  s <- components_getitem comp_cls;; components_setitem comp_cls (s_add s entity).

(** [self._components[comp_cls].remove(entity)]: [KeyError] if absent. *)
Definition components_remove (comp_cls : nat) (entity : Z) : M unit :=
  s <- components_getitem comp_cls;;
  if s_mem s entity then components_setitem comp_cls (s_remove s entity)
  else raise KeyError.

(** The fields of a component object ([Unset] before any assignment). *)
Definition fields_of (w : World) (l : nat) : CompFields :=
  match d_get (heap w) l with Some f => f | None => mkFields Unset Unset end.

Definition set_fields (l : nat) (f : CompFields) : M unit :=
  modify (fun w => mkWorld (d_set (heap w) l f) (scene w)).

(** [Component.init_entity(self, scene, entity)] with the base class's
    [__init_entity__] hook, which does nothing. *)
Definition init_entity (component : Component) (entity : Z) : M unit :=
  sid <- gets (fun w => scene_ref (scene w));;
  set_fields (c_ref component) (mkFields (Val sid) (Val entity)).

(** ** Scene: entities and components *)

(** [Scene.create_entity].  [entity] is the identifier drawn by [Entity()]
    (a random [uuid4().int]); [comp_dict] is the very dict stored at
    [self._entities[entity]], so it is read back from there. *)
Definition create_entity (entity : Z) (components : list Component) : M Z :=
  entities_setitem entity [];;
  for_ components (fun component =>
    comp_dict <- entities_getitem entity;;
    entities_setitem entity (d_set comp_dict (c_cls component) component);;
    components_add (c_cls component) entity;;
    init_entity component entity);;
  ret entity.

(** [Scene.get_entities] *)
Definition get_entities : M (list Z) :=
  gets (fun w => d_keys (_entities (scene w))).

(** [Scene.get_entities_with].  The generator is run to the end; the inner
    generator of components of each entity is its list of [entity_dict[c]]. *)
Definition get_entities_with (comp_classes : list nat)
  : M (list (Z * res (list Component))) :=
  match comp_classes with
  | [] => ret []
  | _ :: _ =>
      sets <- mapM components_getitem comp_classes;;
      let entities := set_intersection sets in
      items <- gets (fun w => _entities (scene w));;
      ret (map (fun '(entity, entity_dict) =>
                  (entity, res_map (dict_getitem entity_dict) comp_classes))
               (filter (fun '(entity, _) => s_mem entities entity) items))
  end.

(** [Scene.del_entity] *)
Definition del_entity (entity : Z) : M unit :=
  comp_dict <- entities_getitem entity;;
  for_ (d_keys comp_dict) (fun comp_cls => components_remove comp_cls entity);;
  entities_delitem entity.

(** [Scene.add_component] *)
Definition add_component (entity : Z) (component : Component) : M unit :=
  comp_dict <- entities_getitem entity;;
  entities_setitem entity (d_set comp_dict (c_cls component) component);;
  components_add (c_cls component) entity;;
  init_entity component entity.

(** [Scene.add_components]: its loop body is the body of [add_component]. *)
Definition add_components (entity : Z) (components : list Component) : M unit :=
  for_ components (fun component => add_component entity component).

(** [Scene.get_components_from], run to the end. *)
Definition get_components_from (entities : list Z) (comp_cls : nat) : M (list Component) :=
  mapM (fun entity =>
          comp_dict <- entities_getitem entity;;
          match d_get comp_dict comp_cls with
          | None => raise MissingComponent
          | Some c => ret c
          end) entities.

(** [Scene.has_component] *)
Definition has_component (entity : Z) (comp_cls : nat) : M bool :=
  comp_dict <- entities_getitem entity;; ret (d_mem comp_dict comp_cls).

(** [Scene.has_components] *)
Definition has_components (entity : Z) (comp_classes : list nat) : M bool :=
  entity_sets <- mapM components_getitem comp_classes;;
  let entities := match entity_sets with
                  | [] => []
                  | _ :: _ => set_intersection entity_sets
                  end in
  ret (s_mem entities entity).

(** [Scene.get_single_component]: [next(iter(...))] takes the first element
    of the set's iteration order; an empty set raises [StopIteration]. *)
Definition get_single_component (comp_cls : nat) : M Component :=
  s <- components_getitem comp_cls;;
  match s with
  | [] => raise StopIteration
  | entity :: _ =>
      comp_dict <- entities_getitem entity;;
      match dict_getitem comp_dict comp_cls with
      | Ok c => ret c
      | Err x => raise x
      end
  end.

(** [Scene.get_component] *)
Definition get_component (entity : Z) (comp_cls : nat) : M Component :=
  comp_dict <- entities_getitem entity;;
  match d_get comp_dict comp_cls with
  | None => raise MissingComponent
  | Some c => ret c
  end.

(** [Scene.get_components] *)
Definition get_components (entity : Z) (comp_classes : list nat) : M (list Component) :=
  comp_dict <- entities_getitem entity;;
  mapM (fun comp_cls =>
          match d_get comp_dict comp_cls with
          | None => raise MissingComponent
          | Some c => ret c
          end) comp_classes.

(** [try: ... except KeyError: return h] *)
Definition try_except_KeyError {A} (m : M A) (h : A) : M A :=
  fun w => match m w with
           | (Err KeyError, w') => (Ok h, w')
           | r => r
           end.

(** [Scene.try_component]: [MissingEntity] is an [ECSError], not a
    [KeyError], so only the inner dict's [KeyError] is caught. *)
Definition try_component (entity : Z) (comp_cls : nat) : M (option Component) :=
  try_except_KeyError
    (comp_dict <- entities_getitem entity;;
     match dict_getitem comp_dict comp_cls with
     | Ok c => ret (Some c)
     | Err x => raise x
     end)
    None.

(** [Scene.try_components] *)
Definition try_components (entity : Z) (comp_classes : list nat)
  : M (list (option Component)) :=
  comp_dict <- entities_getitem entity;;
  ret (map (fun comp_cls => if d_mem comp_dict comp_cls then d_get comp_dict comp_cls else None)
           comp_classes).

(** [Scene.del_component]; [pop] mutates the entity's dict in place. *)
Definition del_component (entity : Z) (comp_cls : nat) : M unit :=
  comp_dict <- entities_getitem entity;;
  if negb (d_mem comp_dict comp_cls) then raise MissingComponent
  else
    comp_dict' <- entities_getitem entity;;
    match d_get comp_dict' comp_cls with
    | None => raise KeyError
    | Some component =>
        entities_setitem entity (d_del comp_dict' comp_cls);;
        components_remove comp_cls entity;;
        fs <- gets (fun w => fields_of w (c_ref component));;
        set_fields (c_ref component) (mkFields (f_scene fs) NoneV)
    end.

(** ** Scene: systems *)

Definition systems_of (w : World) : list (Z * list (nat * System)) := _systems (scene w).
Definition set_systems ss : M unit := modify (map_scene (with_systems ss)).
Definition set_priorities ps : M unit := modify (map_scene (with_priorities ps)).

(** [bisect.bisect_right(a, x, key=itemgetter(0))]: the binary search loop
    [while lo < hi: mid = (lo + hi) // 2; if x < key(a[mid]): hi = mid
    else: lo = mid + 1]; every round shrinks [hi - lo], so [length a + 1]
    rounds of fuel always suffice. *)
Fixpoint bisect_loop {B} (fuel : nat) (a : list (Z * B)) (x : Z) (lo hi : nat) : nat :=
  match fuel with
  | O => lo
  | S fuel' =>
      if Nat.ltb lo hi then
        let mid := Nat.div (lo + hi) 2 in
        match nth_error a mid with
        | Some (k, _) =>
            if Z.ltb x k then bisect_loop fuel' a x lo mid
            else bisect_loop fuel' a x (S mid) hi
        | None => lo
        end
      else lo
  end.

Definition bisect_right {B} (a : list (Z * B)) (x : Z) : nat :=
  bisect_loop (S (length a)) a x 0 (length a).

(** [bisect.insort(a, item, key=itemgetter(0))] *)
Definition insort {B} (a : list (Z * B)) (item : Z * B) : list (Z * B) :=
  let lo := bisect_right a (fst item) in
  firstn lo a ++ item :: skipn lo a.

(** [next(sys for prio, sys in self._systems if prio == priority)], and the
    in-place update [system_dict[k] = v] of that (first) bucket's dict. *)
Fixpoint update_first_bucket (priority : Z) (f : list (nat * System) -> list (nat * System))
  (ss : list (Z * list (nat * System))) : option (list (Z * list (nat * System))) :=
  match ss with
  | [] => None
  | (prio, sys) :: r =>
      if Z.eqb prio priority then Some ((prio, f sys) :: r)
      else option_map (cons (prio, sys)) (update_first_bucket priority f r)
  end.

(** [Scene.add_system] *)
Definition add_system (system : System) (priority : Z) : M unit :=
  prios <- gets (fun w => _priorities (scene w));;
  if negb (s_mem prios priority) then
    set_priorities (s_add prios priority);;
    ss <- gets systems_of;;
    set_systems (insort ss (priority, [(s_cls system, system)]))
  else
    ss <- gets systems_of;;
    match update_first_bucket priority
            (fun system_dict => d_set system_dict (s_cls system) system) ss with
    | None => raise StopIteration
    | Some ss' => set_systems ss'
    end.

(** [Scene.add_systems].  An entry is [(system,)] ([None]) or
    [(system, priority)].  [priority] is a local of the whole function: an
    entry without one reuses the previous entry's, and the first entry
    without one finds it unbound.  The loop body after the unpacking is the
    body of [add_system]. *)
Fixpoint add_systems_loop (priority : option Z) (systems : list (System * option Z)) : M unit :=
  match systems with
  | [] => ret tt
  | (system, arg) :: rest =>
      let priority := match arg with Some p => Some p | None => priority end in
      match priority with
      | None => raise UnboundLocalError
      | Some p => add_system system p;; add_systems_loop priority rest
      end
  end.

Definition add_systems (systems : list (System * option Z)) : M unit :=
  add_systems_loop None systems.

(** Python's [lst[i]] index normalisation: [-n <= i < n]. *)
Definition py_index (n : nat) (i : Z) : option nat :=
  if Z.leb 0 i then (if Z.ltb i (Z.of_nat n) then Some (Z.to_nat i) else None)
  else if Z.leb (- Z.of_nat n) i then Some (Z.to_nat (i + Z.of_nat n)) else None.

Fixpoint list_set {A} (l : list A) (i : nat) (x : A) : list A :=
  match l, i with
  | [], _ => []
  | _ :: r, O => x :: r
  | y :: r, S i' => y :: list_set r i' x
  end.

(** [Scene.del_system]: the [for ... else] search finds the first bucket
    holding the class, then [del self._systems[priority][1][system_cls]]
    indexes the bucket list with the priority value found. *)
Definition del_system (system_cls : nat) : M unit :=
  ss <- gets systems_of;;
  match find (fun b => d_mem (snd b) system_cls) ss with
  | None => raise MissingSystem
  | Some (priority, _) =>
      match py_index (length ss) priority with
      | None => raise IndexError
      | Some i =>
          match nth_error ss i with
          | None => raise IndexError
          | Some (p, systems) =>
              if d_mem systems system_cls
              then set_systems (list_set ss i (p, d_del systems system_cls))
              else raise KeyError
          end
      end
  end.

(** [Scene.update]: the systems whose [update(self, *args)] is called, in
    call order (the buckets reversed, each bucket's dict in order).  The
    systems' own [update] bodies are not part of the scheduler. *)
Definition update_order (sc : Scene) : list System :=
  concat (map (fun b => d_values (snd b)) (rev (_systems sc))).

Definition update : M (list System) := gets (fun w => update_order (scene w)).

(** ** Reachable scenes *)

Inductive Op :=
| OpCreateEntity (entity : Z) (components : list Component)
| OpAddComponent (entity : Z) (component : Component)
| OpAddComponents (entity : Z) (components : list Component)
| OpDelComponent (entity : Z) (comp_cls : nat)
| OpDelEntity (entity : Z)
| OpGetEntities
| OpGetEntitiesWith (comp_classes : list nat)
| OpGetComponentsFrom (entities : list Z) (comp_cls : nat)
| OpHasComponent (entity : Z) (comp_cls : nat)
| OpHasComponents (entity : Z) (comp_classes : list nat)
| OpGetSingleComponent (comp_cls : nat)
| OpGetComponent (entity : Z) (comp_cls : nat)
| OpGetComponents (entity : Z) (comp_classes : list nat)
| OpTryComponent (entity : Z) (comp_cls : nat)
| OpTryComponents (entity : Z) (comp_classes : list nat)
| OpAddSystem (system : System) (priority : Z)
| OpAddSystems (systems : list (System * option Z))
| OpDelSystem (system_cls : nat)
| OpUpdate.

(** The world after an operation, whether it returned or raised. *)
Definition run_op (o : Op) (w : World) : World :=
  match o with
  | OpCreateEntity e cs => snd (create_entity e cs w)
  | OpAddComponent e c => snd (add_component e c w)
  | OpAddComponents e cs => snd (add_components e cs w)
  | OpDelComponent e t => snd (del_component e t w)
  | OpDelEntity e => snd (del_entity e w)
  | OpGetEntities => snd (get_entities w)
  | OpGetEntitiesWith ts => snd (get_entities_with ts w)
  | OpGetComponentsFrom es t => snd (get_components_from es t w)
  | OpHasComponent e t => snd (has_component e t w)
  | OpHasComponents e ts => snd (has_components e ts w)
  | OpGetSingleComponent t => snd (get_single_component t w)
  | OpGetComponent e t => snd (get_component e t w)
  | OpGetComponents e ts => snd (get_components e ts w)
  | OpTryComponent e t => snd (try_component e t w)
  | OpTryComponents e ts => snd (try_components e ts w)
  | OpAddSystem s p => snd (add_system s p w)
  | OpAddSystems l => snd (add_systems l w)
  | OpDelSystem t => snd (del_system t w)
  | OpUpdate => snd (update w)
  end.

(** [Entity()] draws a fresh identifier: a random 128-bit [uuid4], never
    equal to one already registered. *)
Definition op_fresh (w : World) (o : Op) : bool :=
  match o with
  | OpCreateEntity e _ => negb (d_mem (_entities (scene w)) e)
  | _ => true
  end.

Fixpoint run_ops (os : list Op) (w : World) : World :=
  match os with
  | [] => w
  | o :: r => run_ops r (run_op o w)
  end.

Fixpoint ops_fresh (os : list Op) (w : World) : bool :=
  match os with
  | [] => true
  | o :: r => op_fresh w o && ops_fresh r (run_op o w)
  end.

(** ** Consistency of the two component indexes *)

(** [self._components[T]] as a set (a missing key reads as the empty set). *)
Definition comp_set (sc : Scene) (comp_cls : nat) : list Z :=
  match d_get (_components sc) comp_cls with Some s => s | None => [] end.

(** [comp_cls in self._entities[entity]] for a registered entity. *)
Definition holds (sc : Scene) (entity : Z) (comp_cls : nat) : bool :=
  match d_get (_entities sc) entity with
  | Some d => d_mem d comp_cls
  | None => false
  end.

Record Inv (sc : Scene) : Prop := {
  inv_entities_nodup : NoDup (d_keys (_entities sc));
  inv_dicts_nodup : forall e d, d_get (_entities sc) e = Some d -> NoDup (d_keys d);
  inv_cls : forall e d t c, d_get (_entities sc) e = Some d -> d_get d t = Some c -> c_cls c = t;
  inv_index : forall e t, holds sc e t = true <-> In e (comp_set sc t)
}.

(** ** The [Singleton] metaclass *)

(** An object: its class and its instance attributes. *)
Record Obj := mkObj { o_cls : nat; o_attrs : list (nat * Z) }.

(** [Singleton._instances] (class to instance reference) and the objects
    of the process, by reference; [next_ref] is the next fresh reference. *)
Record Registry := mkRegistry {
  _instances : list (nat * nat);
  objects : list (nat * Obj);
  next_ref : nat
}.

Definition init_registry : Registry := mkRegistry [] [] 0.

(** [Singleton.__call__(cls, *args, **kwargs)].  [construct cls args] is
    [super().__call__( *args)]: the class's [__new__] and [__init__], giving
    the new object's attributes or raising. *)
Definition singleton_call (construct : nat -> list Z -> res (list (nat * Z)))
  (cls : nat) (args : list Z) (r : Registry) : res nat * Registry :=
  match d_get (_instances r) cls with
  | Some inst => (Ok inst, r)
  | None =>
      match construct cls args with
      | Err x => (Err x, r)
      | Ok attrs =>
          let l := next_ref r in
          (Ok l, mkRegistry (d_set (_instances r) cls l)
                            (objects r ++ [(l, mkObj cls attrs)]) (S l))
      end
  end.

(** [obj.a = v] through the reference [l]. *)
Definition setattr (l a : nat) (v : Z) (r : Registry) : Registry :=
  mkRegistry (_instances r)
    (map (fun '(k, o) => if Nat.eqb k l then (k, mkObj (o_cls o) (d_set (o_attrs o) a v))
                         else (k, o)) (objects r))
    (next_ref r).

(** [obj.a] through the reference [l]. *)
Definition getattr (l a : nat) (r : Registry) : option Z :=
  match d_get (objects r) l with
  | Some o => d_get (o_attrs o) a
  | None => None
  end.

Inductive SOp := SCall (cls : nat) (args : list Z) | SSetattr (l a : nat) (v : Z).

Definition srun construct (o : SOp) (r : Registry) : Registry :=
  match o with
  | SCall cls args => snd (singleton_call construct cls args r)
  | SSetattr l a v => setattr l a v r
  end.

Fixpoint sruns construct (os : list SOp) (r : Registry) : Registry :=
  match os with
  | [] => r
  | o :: rest => sruns construct rest (srun construct o r)
  end.

(** The live objects of class [cls]. *)
Definition count_cls (cls : nat) (objs : list (nat * Obj)) : nat :=
  length (filter (fun ko => Nat.eqb (o_cls (snd ko)) cls) objs).

(** What [Singleton._instances] guarantees about the objects: a class with
    no cached instance has no object, a cached class has exactly one, and
    every reference in use is below [next_ref]. *)
Record RInv (r : Registry) : Prop := {
  rinv_none : forall cls, d_get (_instances r) cls = None -> count_cls cls (objects r) = 0;
  rinv_some : forall cls l, d_get (_instances r) cls = Some l ->
    count_cls cls (objects r) = 1 /\ exists o, d_get (objects r) l = Some o /\ o_cls o = cls;
  rinv_fresh : forall k, In k (map fst (objects r)) -> k < next_ref r
}.

(** The entity dict built by [create_entity]'s loop from [d]. *)
Definition fold_comps (d : list (nat * Component)) (cs : list Component) :=
  fold_left (fun d c => d_set d (c_cls c) c) cs d.

(** ** Frame relations between worlds *)

(** An operation whose final world is related to its initial one by [R],
    whether it returns or raises. *)
Definition Stable (R : World -> World -> Prop) {A} (m : M A) : Prop :=
  forall w, R w (snd (m w)).

(** Same entity index and same type index (as sets). *)
Definition ec_same (w w' : World) : Prop :=
  _entities (scene w') = _entities (scene w) /\
  forall t, comp_set (scene w') t = comp_set (scene w) t.

(** Same scheduler state. *)
Definition sys_same (w w' : World) : Prop :=
  _systems (scene w') = _systems (scene w) /\ _priorities (scene w') = _priorities (scene w).

(** The invariant carries over. *)
Definition inv_pres (w w' : World) : Prop := Inv (scene w) -> Inv (scene w').

(** The scheduler's invariant: bucket priorities strictly ascending (as
    [insort] keeps them) and [_priorities] the set of bucket priorities. *)
Record SysInv (sc : Scene) : Prop := {
  sys_sorted : StronglySorted Z.lt (map fst (_systems sc));
  sys_prios : forall p, In p (_priorities sc) <-> In p (map fst (_systems sc))
}.

Definition sysinv_pres (w w' : World) : Prop := SysInv (scene w) -> SysInv (scene w').

(** The components' fields are untouched. *)
Definition heap_same (w w' : World) : Prop := heap w' = heap w.

(** The Scene's read-only methods: they return a value computed from the
    indexes without assigning anything.  [Scene.update] is not one of them:
    it runs the systems' own [update] bodies, which may change anything. *)
Definition is_query (o : Op) : bool :=
  match o with
  | OpGetEntities | OpGetEntitiesWith _ | OpGetComponentsFrom _ _ | OpHasComponent _ _
  | OpHasComponents _ _ | OpGetSingleComponent _ | OpGetComponent _ _ | OpGetComponents _ _
  | OpTryComponent _ _ | OpTryComponents _ _ => true
  | _ => false
  end.

(** The schedule [add_systems] is documented to follow: every entry goes to
    [add_system] with its own priority, or, when it has none, with the last
    priority given before it. *)
Fixpoint carry_priorities (p : Z) (systems : list (System * option Z)) : list (System * Z) :=
  match systems with
  | [] => []
  | (s, arg) :: rest =>
      let q := match arg with Some q => q | None => p end in (s, q) :: carry_priorities q rest
  end.

(** The buckets from position [n] on have priorities [n], [n + 1], ...:
    each bucket's priority is its index in [_systems]. *)
Fixpoint positional_from (n : nat) (ss : list (Z * list (nat * System))) : bool :=
  match ss with
  | [] => true
  | (q, _) :: r => Z.eqb q (Z.of_nat n) && positional_from (S n) r
  end.

(** Smoke tests. *)
Definition cA : Component := mkComponent 0 1.
Definition cB : Component := mkComponent 1 2.
Definition w_abc : World :=
  snd (create_entity 30 [cA; cB]
    (snd (create_entity 20 [cB] (snd (create_entity 10 [cA] init_world))))).

(** The same three entities, as operations from a new Scene. *)
Definition ops_abc : list Op :=
  [OpCreateEntity 10 [cA]; OpCreateEntity 20 [cB]; OpCreateEntity 30 [cA; cB]].

Definition ok_or {A} (d : A) (r : res A) : A := match r with Ok a => a | Err _ => d end.

Example get_entities_with_ex :
  map fst (ok_or [] (fst (get_entities_with [1; 2] w_abc))) = [30%Z].
Proof. reflexivity. Qed.

Example get_entities_with_ex2 :
  map snd (ok_or [] (fst (get_entities_with [2; 1] w_abc))) = [Ok [cB; cA]].
Proof. reflexivity. Qed.

Example update_ex :
  update_order (scene (snd (add_systems [(mkSystem 7 7, Some 0%Z); (mkSystem 8 8, Some 10%Z);
    (mkSystem 9 9, Some 5%Z)] init_world)))
  = [mkSystem 8 8; mkSystem 9 9; mkSystem 7 7].
Proof. reflexivity. Qed.

(** * Proofs *)

(** ** Dicts and sets *)

Section DictFacts.
Context {K V : Type} `{EqDec K}.
Implicit Types (d : list (K * V)) (k : K) (v : V).

Lemma d_get_replace d k v k' :
  d_get (d_replace d k v) k' = if eq_dec k' k then (if d_mem d k then Some v else None)
                               else d_get d k'.
Proof.
  unfold d_mem; induction d as [|[k0 v0] r IH]; simpl.
  - destruct (eq_dec k' k); reflexivity.
  - destruct (eq_dec k k0) as [->|Hn]; simpl.
    + destruct (eq_dec k' k0); simpl; [reflexivity|].
      rewrite IH. destruct (eq_dec k' k0); [contradiction|reflexivity].
    + destruct (eq_dec k' k0) as [->|Hn'].
      * destruct (eq_dec k0 k); [congruence|reflexivity].
      * rewrite IH. reflexivity.
Qed.

Lemma d_get_app d d' k :
  d_get (d ++ d') k = match d_get d k with Some v => Some v | None => d_get d' k end.
Proof.
  induction d as [|[k0 v0] r IH]; simpl; [reflexivity|].
  destruct (eq_dec k k0); auto.
Qed.

Lemma d_get_set d k v k' :
  d_get (d_set d k v) k' = if eq_dec k' k then Some v else d_get d k'.
Proof.
  unfold d_set. destruct (d_mem d k) eqn:Hm.
  - rewrite d_get_replace, Hm. reflexivity.
  - rewrite d_get_app. unfold d_mem in Hm. simpl.
    destruct (eq_dec k' k) as [->|Hn].
    + destruct (d_get d k); [discriminate|reflexivity].
    + destruct (d_get d k'); [reflexivity|].
      destruct (eq_dec k' k); [contradiction|reflexivity].
Qed.

Lemma d_get_del d k k' :
  d_get (d_del d k) k' = if eq_dec k' k then None else d_get d k'.
Proof.
  unfold d_del; induction d as [|[k0 v0] r IH]; simpl.
  - destruct (eq_dec k' k); reflexivity.
  - destruct (eq_dec k k0) as [->|Hn]; simpl.
    + rewrite IH. destruct (eq_dec k' k0); reflexivity.
    + rewrite IH. destruct (eq_dec k' k0) as [->|]; [|reflexivity].
      destruct (eq_dec k0 k); [congruence|reflexivity].
Qed.

Lemma d_mem_get d k : d_mem d k = true <-> exists v, d_get d k = Some v.
Proof.
  unfold d_mem; destruct (d_get d k); split; intros; eauto; try discriminate.
  destruct H0; discriminate.
Qed.

Lemma d_keys_In d k : In k (d_keys d) <-> d_mem d k = true.
Proof.
  unfold d_keys, d_mem; induction d as [|[k0 v0] r IH]; simpl.
  - split; [tauto|discriminate].
  - destruct (eq_dec k k0) as [->|Hn].
    + split; auto.
    + rewrite <- IH. split; [intros [->|]; [contradiction|assumption]|auto].
Qed.



Lemma d_keys_replace d k v : d_keys (d_replace d k v) = d_keys d.
Proof.
  unfold d_keys; induction d as [|[k0 v0] r IH]; simpl; [reflexivity|].
  destruct (eq_dec k k0); simpl; rewrite IH; reflexivity.
Qed.

Lemma d_set_nodup d k v : NoDup (d_keys d) -> NoDup (d_keys (d_set d k v)).
Proof.
  unfold d_set. destruct (d_mem d k) eqn:Hm; intros Hnd.
  - rewrite d_keys_replace; assumption.
  - unfold d_keys in *. rewrite map_app. simpl.
    apply NoDup_app; auto.
    + constructor; [tauto|constructor].
    + intros x Hx [Heq|[]]. subst x. apply (d_keys_In d k) in Hx. congruence.
Qed.

Lemma d_del_nodup d k : NoDup (d_keys d) -> NoDup (d_keys (d_del d k)).
Proof.
  unfold d_keys, d_del; induction d as [|[k0 v0] r IH]; simpl; [auto|].
  intros Hnd; inversion Hnd as [|? ? Hnin Hnd']; subst.
  destruct (eq_dec k k0); simpl; auto.
  constructor; auto. intros Hin. apply Hnin.
  apply in_map_iff in Hin as [[a b] [Ha Hb]]. apply filter_In in Hb as [Hb _].
  simpl in Ha; subst a. change k0 with (fst (k0, b)). apply in_map; assumption.
Qed.
End DictFacts.

Lemma s_mem_In s x : s_mem s x = true <-> In x s.
Proof.
  unfold s_mem. rewrite existsb_exists. split.
  - intros [y [Hy Heq]]. apply Z.eqb_eq in Heq; subst; assumption.
  - intros Hx. exists x; split; [assumption|apply Z.eqb_refl].
Qed.

Lemma s_add_In s x y : In y (s_add s x) <-> In y s \/ y = x.
Proof.
  unfold s_add. destruct (s_mem s x) eqn:Hm.
  - apply s_mem_In in Hm. split; [tauto|intros [Hy|Hy]; [assumption|subst y; assumption]].
  - rewrite in_app_iff; simpl. intuition.
Qed.

Lemma s_remove_In s x y : In y (s_remove s x) <-> In y s /\ y <> x.
Proof.
  unfold s_remove. rewrite filter_In.
  destruct (Z.eqb_spec x y); simpl; split; intros [H1 H2]; subst; intuition; congruence.
Qed.

(** ** Monad and frame lemmas *)

Lemma bind_ok {A B} (m : M A) (k : A -> M B) w a w' :
  m w = (Ok a, w') -> bind m k w = k a w'.
Proof. intros H; unfold bind; rewrite H; reflexivity. Qed.

Lemma bind_err {A B} (m : M A) (k : A -> M B) w x w' :
  m w = (Err x, w') -> bind m k w = (Err x, w').
Proof. intros H; unfold bind; rewrite H; reflexivity. Qed.

Section StableFacts.
Variable R : World -> World -> Prop.
Hypothesis R_refl : forall w, R w w.
Hypothesis R_trans : forall w1 w2 w3, R w1 w2 -> R w2 w3 -> R w1 w3.

Lemma stable_ret {A} (a : A) : Stable R (ret a).
Proof. intros w; apply R_refl. Qed.

Lemma stable_raise {A} x : Stable R (@raise A x).
Proof. intros w; apply R_refl. Qed.

Lemma stable_gets {A} (f : World -> A) : Stable R (gets f).
Proof. intros w; apply R_refl. Qed.

Lemma stable_bind {A B} (m : M A) (k : A -> M B) :
  Stable R m -> (forall a, Stable R (k a)) -> Stable R (bind m k).
Proof.
  intros Hm Hk w. unfold bind. specialize (Hm w).
  destruct (m w) as [[a|x] w']; simpl in *; [|assumption].
  eapply R_trans; [exact Hm|apply Hk].
Qed.

Lemma stable_mapM {A B} (f : A -> M B) l :
  (forall x, Stable R (f x)) -> Stable R (mapM f l).
Proof.
  intros Hf; induction l as [|x r IH]; simpl.
  - apply stable_ret.
  - apply stable_bind; [apply Hf|intros y].
    apply stable_bind; [apply IH|intros ys; apply stable_ret].
Qed.

Lemma stable_for {A} (l : list A) body :
  (forall x, Stable R (body x)) -> Stable R (for_ l body).
Proof.
  intros Hb; induction l as [|x r IH]; simpl.
  - apply stable_ret.
  - apply stable_bind; [apply Hb|intros _; apply IH].
Qed.

Lemma stable_try {A} (m : M A) h : Stable R m -> Stable R (try_except_KeyError m h).
Proof.
  intros Hm w. unfold try_except_KeyError. specialize (Hm w).
  destruct (m w) as [[a|[]] w']; assumption.
Qed.

Lemma stable_entities_getitem e : Stable R (entities_getitem e).
Proof. intros w; unfold entities_getitem; destruct (d_get _ _); apply R_refl. Qed.
End StableFacts.

Lemma ec_same_refl w : ec_same w w.
Proof. split; reflexivity. Qed.

Lemma ec_same_trans w1 w2 w3 : ec_same w1 w2 -> ec_same w2 w3 -> ec_same w1 w3.
Proof. intros [H1 H2] [H3 H4]; split; [congruence|intros t; rewrite H4; apply H2]. Qed.

Lemma sys_same_refl w : sys_same w w.
Proof. split; reflexivity. Qed.

Lemma sys_same_trans w1 w2 w3 : sys_same w1 w2 -> sys_same w2 w3 -> sys_same w1 w3.
Proof. intros [H1 H2] [H3 H4]; split; congruence. Qed.

Ltac stable_step refl trans :=
  first
  [ apply (stable_ret _ refl) | apply (stable_raise _ refl) | apply (stable_gets _ refl)
  | apply (stable_entities_getitem _ refl)
  | apply (stable_bind _ trans); [|intros ?]
  | apply (stable_mapM _ refl trans); intros ?
  | apply (stable_for _ refl trans); intros ?
  | apply (stable_try _)
  | match goal with |- Stable _ (match ?x with _ => _ end) => destruct x end
  | match goal with |- Stable _ (if ?x then _ else _) => destruct x end ].

Ltac ec_stable := repeat (stable_step ec_same_refl ec_same_trans; eauto).
Ltac sys_stable := repeat (stable_step sys_same_refl sys_same_trans; eauto).

Lemma comp_set_default w t :
  comp_set (scene (snd (components_getitem t w))) t = comp_set (scene w) t.
Proof.
  unfold components_getitem. destruct (d_get (_components (scene w)) t) eqn:H; [reflexivity|].
  unfold comp_set; simpl. rewrite d_get_set, H. destruct (eq_dec t t); [reflexivity|congruence].
Qed.

Lemma components_getitem_ec t : Stable ec_same (components_getitem t).
Proof.
  intros w. unfold components_getitem. destruct (d_get (_components (scene w)) t) eqn:H;
    simpl; [apply ec_same_refl|].
  split; [reflexivity|]. intros t'. unfold comp_set; simpl. rewrite d_get_set.
  destruct (eq_dec t' t); [subst; rewrite H|]; reflexivity.
Qed.

Lemma components_getitem_result t w :
  fst (components_getitem t w) = Ok (comp_set (scene w) t).
Proof. unfold components_getitem, comp_set. destruct (d_get _ t); reflexivity. Qed.

Lemma components_getitem_sys t : Stable sys_same (components_getitem t).
Proof. intros w. unfold components_getitem. destruct (d_get _ t); split; reflexivity. Qed.

Lemma components_setitem_sys t s : Stable sys_same (components_setitem t s).
Proof. intros w; split; reflexivity. Qed.

Lemma entities_setitem_sys e d : Stable sys_same (entities_setitem e d).
Proof. intros w; split; reflexivity. Qed.

Lemma entities_delitem_sys e : Stable sys_same (entities_delitem e).
Proof. intros w; unfold entities_delitem; destruct (d_mem _ _); split; reflexivity. Qed.

Lemma set_fields_sys l f : Stable sys_same (set_fields l f).
Proof. intros w; split; reflexivity. Qed.

Lemma set_fields_ec l f : Stable ec_same (set_fields l f).
Proof. intros w; split; reflexivity. Qed.

Lemma set_systems_ec ss : Stable ec_same (set_systems ss).
Proof. intros w; split; reflexivity. Qed.

Lemma set_priorities_ec ps : Stable ec_same (set_priorities ps).
Proof. intros w; split; reflexivity. Qed.

#[local] Hint Resolve components_getitem_ec components_getitem_sys components_setitem_sys
  entities_setitem_sys entities_delitem_sys set_fields_sys set_fields_ec
  set_systems_ec set_priorities_ec : core.

(** ** Queries and the scheduler leave the component indexes alone *)

Lemma get_entities_with_ec ts : Stable ec_same (get_entities_with ts).
Proof. unfold get_entities_with; ec_stable. Qed.

Lemma queries_ec o :
  match o with
  | OpCreateEntity _ _ | OpAddComponent _ _ | OpAddComponents _ _
  | OpDelComponent _ _ | OpDelEntity _ => True
  | _ => forall w, ec_same w (run_op o w)
  end.
Proof.
  destruct o; try exact I; cbv beta iota delta [run_op];
    match goal with |- forall w, ec_same w (snd (?m w)) => change (Stable ec_same m) end.
  - unfold get_entities; ec_stable.
  - apply get_entities_with_ec.
  - unfold get_components_from; ec_stable.
  - unfold has_component; ec_stable.
  - unfold has_components; ec_stable.
  - unfold get_single_component; ec_stable.
  - unfold get_component; ec_stable.
  - unfold get_components; ec_stable.
  - unfold try_component; ec_stable.
  - unfold try_components; ec_stable.
  - unfold add_system; ec_stable.
  - unfold add_systems; generalize (@None Z); induction systems as [|[s a] r IH];
      intros p; simpl; ec_stable.
  - unfold del_system; ec_stable.
  - unfold update; ec_stable.
Qed.

(** ** Step specifications of the index primitives *)

Lemma components_getitem_spec t w :
  exists w', components_getitem t w = (Ok (comp_set (scene w) t), w') /\
    heap w' = heap w /\ scene_ref (scene w') = scene_ref (scene w) /\ sys_same w w' /\
    ec_same w w'.
Proof.
  exists (snd (components_getitem t w)). split.
  - rewrite <- (components_getitem_result t w). destruct (components_getitem t w); reflexivity.
  - split; [|split; [|split]].
    + unfold components_getitem; destruct (d_get (_components (scene w)) t); reflexivity.
    + unfold components_getitem; destruct (d_get (_components (scene w)) t); reflexivity.
    + apply components_getitem_sys.
    + apply components_getitem_ec.
Qed.

Lemma components_add_spec t e w :
  exists w', components_add t e w = (Ok tt, w') /\
    heap w' = heap w /\ scene_ref (scene w') = scene_ref (scene w) /\ sys_same w w' /\
    _entities (scene w') = _entities (scene w) /\
    forall t', comp_set (scene w') t' =
               if eq_dec t' t then s_add (comp_set (scene w) t) e else comp_set (scene w) t'.
Proof.
  destruct (components_getitem_spec t w) as [w1 [H1 [Hh [Hr [[Hs1 Hs2] [He Hc]]]]]].
  unfold components_add. rewrite (bind_ok _ _ _ _ _ H1).
  eexists; split; [reflexivity|]. simpl.
  repeat split; try assumption.
  intros t'. unfold comp_set at 1; simpl. rewrite d_get_set.
  destruct (eq_dec t' t); [reflexivity|]. apply Hc.
Qed.

Lemma components_remove_spec t e w :
  In e (comp_set (scene w) t) ->
  exists w', components_remove t e w = (Ok tt, w') /\
    heap w' = heap w /\ scene_ref (scene w') = scene_ref (scene w) /\ sys_same w w' /\
    _entities (scene w') = _entities (scene w) /\
    forall t', comp_set (scene w') t' =
               if eq_dec t' t then s_remove (comp_set (scene w) t) e else comp_set (scene w) t'.
Proof.
  intros Hin.
  destruct (components_getitem_spec t w) as [w1 [H1 [Hh [Hr [[Hs1 Hs2] [He Hc]]]]]].
  unfold components_remove. rewrite (bind_ok _ _ _ _ _ H1).
  rewrite (proj2 (s_mem_In _ _) Hin).
  eexists; split; [reflexivity|]. simpl.
  repeat split; try assumption.
  intros t'. unfold comp_set at 1; simpl. rewrite d_get_set.
  destruct (eq_dec t' t); [reflexivity|]. apply Hc.
Qed.

(** ** The invariant under the elementary index updates *)

Lemma holds_ents sc sc' e t :
  _entities sc' = _entities sc -> holds sc' e t = holds sc e t.
Proof. unfold holds; intros ->; reflexivity. Qed.

Lemma Inv_ext sc sc' :
  Inv sc -> _entities sc' = _entities sc -> (forall t, comp_set sc' t = comp_set sc t) -> Inv sc'.
Proof.
  intros [H1 H2 H3 H4] He Hc. constructor; rewrite ?He; auto.
  intros e t. rewrite (holds_ents sc sc'), Hc by assumption. apply H4.
Qed.

Lemma holds_set sc sc' e d e' t :
  _entities sc' = d_set (_entities sc) e d ->
  holds sc' e' t = if eq_dec e' e then d_mem d t else holds sc e' t.
Proof.
  unfold holds; intros ->. rewrite d_get_set. destruct (eq_dec e' e); reflexivity.
Qed.

Lemma holds_del sc sc' e e' t :
  _entities sc' = d_del (_entities sc) e ->
  holds sc' e' t = if eq_dec e' e then false else holds sc e' t.
Proof.
  unfold holds; intros ->. rewrite d_get_del. destruct (eq_dec e' e); reflexivity.
Qed.

Lemma d_mem_set {K V} `{EqDec K} (d : list (K * V)) k v k' :
  d_mem (d_set d k v) k' = if eq_dec k' k then true else d_mem d k'.
Proof. unfold d_mem at 1. rewrite d_get_set. destruct (eq_dec k' k); reflexivity. Qed.

Lemma d_mem_del {K V} `{EqDec K} (d : list (K * V)) k k' :
  d_mem (d_del d k) k' = if eq_dec k' k then false else d_mem d k'.
Proof. unfold d_mem at 1. rewrite d_get_del. destruct (eq_dec k' k); reflexivity. Qed.

Lemma Inv_fresh sc sc' e :
  Inv sc -> d_get (_entities sc) e = None ->
  _entities sc' = d_set (_entities sc) e [] -> (forall t, comp_set sc' t = comp_set sc t) ->
  Inv sc'.
Proof.
  intros [H1 H2 H3 H4] Hn He Hc. constructor.
  - rewrite He; apply d_set_nodup, H1.
  - intros e' d. rewrite He, d_get_set. destruct (eq_dec e' e); [intros [=<-]; constructor|apply H2].
  - intros e' d t c. rewrite He, d_get_set.
    destruct (eq_dec e' e); [intros [=<-]; discriminate|apply H3].
  - intros e' t. rewrite (holds_set sc sc' e [] e' t He), Hc.
    destruct (eq_dec e' e) as [->|]; [|apply H4].
    rewrite <- H4. unfold holds. rewrite Hn. simpl. split; discriminate.
Qed.

Lemma Inv_add sc sc' e d c :
  Inv sc -> d_get (_entities sc) e = Some d ->
  _entities sc' = d_set (_entities sc) e (d_set d (c_cls c) c) ->
  (forall t, comp_set sc' t = if eq_dec t (c_cls c) then s_add (comp_set sc (c_cls c)) e
                              else comp_set sc t) ->
  Inv sc'.
Proof.
  intros [H1 H2 H3 H4] Hd He Hc. constructor.
  - rewrite He; apply d_set_nodup, H1.
  - intros e' d'. rewrite He, d_get_set. destruct (eq_dec e' e) as [->|].
    + intros [=<-]. apply d_set_nodup. eapply H2; eauto.
    + apply H2.
  - intros e' d' t c'. rewrite He, d_get_set. destruct (eq_dec e' e) as [->|].
    + intros [=<-]. rewrite d_get_set. destruct (eq_dec t (c_cls c)) as [->|].
      * intros [=<-]; reflexivity.
      * eapply H3; eauto.
    + apply H3.
  - intros e' t. rewrite (holds_set sc sc' e _ e' t He), Hc, d_mem_set.
    destruct (eq_dec t (c_cls c)) as [->|Ht]; destruct (eq_dec e' e) as [->|He'].
    + split; [intros _; apply s_add_In; right; reflexivity|reflexivity].
    + rewrite s_add_In, <- H4. intuition.
    + rewrite <- H4. unfold holds. rewrite Hd. reflexivity.
    + apply H4.
Qed.

Lemma Inv_del_component sc sc' e d t :
  Inv sc -> d_get (_entities sc) e = Some d ->
  _entities sc' = d_set (_entities sc) e (d_del d t) ->
  (forall t', comp_set sc' t' = if eq_dec t' t then s_remove (comp_set sc t) e
                                else comp_set sc t') ->
  Inv sc'.
Proof.
  intros [H1 H2 H3 H4] Hd He Hc. constructor.
  - rewrite He; apply d_set_nodup, H1.
  - intros e' d'. rewrite He, d_get_set. destruct (eq_dec e' e) as [->|].
    + intros [=<-]. apply d_del_nodup. eapply H2; eauto.
    + apply H2.
  - intros e' d' t' c'. rewrite He, d_get_set. destruct (eq_dec e' e) as [->|].
    + intros [=<-]. rewrite d_get_del. destruct (eq_dec t' t); [discriminate|].
      eapply H3; eauto.
    + apply H3.
  - intros e' t'. rewrite (holds_set sc sc' e _ e' t' He), Hc, d_mem_del.
    destruct (eq_dec t' t) as [->|Ht]; destruct (eq_dec e' e) as [->|He'].
    + rewrite s_remove_In. intuition discriminate.
    + rewrite s_remove_In, <- H4. intuition.
    + rewrite <- H4. unfold holds. rewrite Hd. reflexivity.
    + apply H4.
Qed.

Lemma Inv_del_entity sc sc' e d :
  Inv sc -> d_get (_entities sc) e = Some d ->
  _entities sc' = d_del (_entities sc) e ->
  (forall t, comp_set sc' t = if d_mem d t then s_remove (comp_set sc t) e else comp_set sc t) ->
  Inv sc'.
Proof.
  intros [H1 H2 H3 H4] Hd He Hc. constructor.
  - rewrite He; apply d_del_nodup, H1.
  - intros e' d'. rewrite He, d_get_del. destruct (eq_dec e' e); [discriminate|apply H2].
  - intros e' d' t c'. rewrite He, d_get_del. destruct (eq_dec e' e); [discriminate|apply H3].
  - intros e' t. rewrite (holds_del sc sc' e e' t He), Hc.
    assert (Hh : holds sc e t = d_mem d t) by (unfold holds; rewrite Hd; reflexivity).
    destruct (d_mem d t) eqn:Hm; destruct (eq_dec e' e) as [->|He'].
    + rewrite s_remove_In. intuition discriminate.
    + rewrite s_remove_In, <- H4. intuition.
    + rewrite <- H4, Hh. intuition discriminate.
    + apply H4.
Qed.

(** ** Specifications of the mutating Scene operations *)

Lemma entities_getitem_ok e w d :
  d_get (_entities (scene w)) e = Some d -> entities_getitem e w = (Ok d, w).
Proof. intros H; unfold entities_getitem; rewrite H; reflexivity. Qed.

Lemma entities_getitem_missing e w :
  d_get (_entities (scene w)) e = None -> entities_getitem e w = (Err MissingEntity, w).
Proof. intros H; unfold entities_getitem; rewrite H; reflexivity. Qed.

Lemma add_component_missing e c w :
  d_get (_entities (scene w)) e = None -> add_component e c w = (Err MissingEntity, w).
Proof. intros H. unfold add_component. apply bind_err, entities_getitem_missing, H. Qed.

Lemma add_component_spec e c w d :
  d_get (_entities (scene w)) e = Some d ->
  exists w', add_component e c w = (Ok tt, w') /\
    heap w' = d_set (heap w) (c_ref c) (mkFields (Val (scene_ref (scene w))) (Val e)) /\
    scene_ref (scene w') = scene_ref (scene w) /\ sys_same w w' /\
    _entities (scene w') = d_set (_entities (scene w)) e (d_set d (c_cls c) c) /\
    forall t', comp_set (scene w') t' =
      if eq_dec t' (c_cls c) then s_add (comp_set (scene w) (c_cls c)) e
      else comp_set (scene w) t'.
Proof.
  intros Hd. unfold add_component.
  rewrite (bind_ok _ _ _ _ _ (entities_getitem_ok _ _ _ Hd)).
  set (w1 := snd (entities_setitem e (d_set d (c_cls c) c) w)).
  assert (Hs : entities_setitem e (d_set d (c_cls c) c) w = (Ok tt, w1)) by reflexivity.
  rewrite (bind_ok _ _ _ _ _ Hs).
  destruct (components_add_spec (c_cls c) e w1) as [w2 [H2 [Hh2 [Hr2 [[Hs2 Hp2] [He2 Hc2]]]]]].
  rewrite (bind_ok _ _ _ _ _ H2).
  eexists; split; [reflexivity|]. simpl.
  rewrite Hh2, Hr2, He2. repeat split; try reflexivity; try assumption.
Qed.

Lemma del_component_missing_entity e t w :
  d_get (_entities (scene w)) e = None -> del_component e t w = (Err MissingEntity, w).
Proof. intros H. unfold del_component. apply bind_err, entities_getitem_missing, H. Qed.

Lemma del_component_absent e t w d :
  d_get (_entities (scene w)) e = Some d -> d_get d t = None ->
  del_component e t w = (Err MissingComponent, w).
Proof.
  intros Hd Ht. unfold del_component. rewrite (bind_ok _ _ _ _ _ (entities_getitem_ok _ _ _ Hd)).
  unfold d_mem; rewrite Ht. reflexivity.
Qed.

Lemma del_component_spec e t w d c :
  Inv (scene w) -> d_get (_entities (scene w)) e = Some d -> d_get d t = Some c ->
  exists w', del_component e t w = (Ok tt, w') /\
    heap w' = d_set (heap w) (c_ref c) (mkFields (f_scene (fields_of w (c_ref c))) NoneV) /\
    scene_ref (scene w') = scene_ref (scene w) /\ sys_same w w' /\
    _entities (scene w') = d_set (_entities (scene w)) e (d_del d t) /\
    forall t', comp_set (scene w') t' =
      if eq_dec t' t then s_remove (comp_set (scene w) t) e else comp_set (scene w) t'.
Proof.
  intros HI Hd Ht. unfold del_component.
  rewrite (bind_ok _ _ _ _ _ (entities_getitem_ok _ _ _ Hd)).
  assert (Hm : d_mem d t = true) by (unfold d_mem; rewrite Ht; reflexivity).
  rewrite Hm. change (negb true) with false. cbv beta iota.
  rewrite (bind_ok _ _ _ _ _ (entities_getitem_ok _ _ _ Hd)). rewrite Ht.
  set (w1 := snd (entities_setitem e (d_del d t) w)).
  assert (Hs : entities_setitem e (d_del d t) w = (Ok tt, w1)) by reflexivity.
  rewrite (bind_ok _ _ _ _ _ Hs).
  assert (Hin : In e (comp_set (scene w1) t)).
  { apply (inv_index _ HI). unfold holds. rewrite Hd. assumption. }
  destruct (components_remove_spec t e w1 Hin) as [w2 [H2 [Hh2 [Hr2 [[Hs2 Hp2] [He2 Hc2]]]]]].
  rewrite (bind_ok _ _ _ _ _ H2).
  eexists; split; [reflexivity|]. simpl.
  rewrite Hh2, Hr2, He2. repeat split; try reflexivity; try assumption.
  unfold fields_of. rewrite Hh2. reflexivity.
Qed.

Lemma remove_loop_spec e ks w :
  NoDup ks -> (forall t, In t ks -> In e (comp_set (scene w) t)) ->
  exists w', for_ ks (fun t => components_remove t e) w = (Ok tt, w') /\
    heap w' = heap w /\ scene_ref (scene w') = scene_ref (scene w) /\ sys_same w w' /\
    _entities (scene w') = _entities (scene w) /\
    forall t, (In t ks -> comp_set (scene w') t = s_remove (comp_set (scene w) t) e) /\
              (~ In t ks -> comp_set (scene w') t = comp_set (scene w) t).
Proof.
  revert w; induction ks as [|k r IH]; intros w Hnd Hin.
  - exists w; split; [reflexivity|]. repeat split; try reflexivity. simpl; tauto.
  - inversion Hnd as [|? ? Hk Hnd']; subst.
    destruct (components_remove_spec k e w (Hin k (or_introl eq_refl)))
      as [w1 [H1 [Hh1 [Hr1 [[Hs1 Hp1] [He1 Hc1]]]]]].
    destruct (IH w1 Hnd') as [w2 [H2 [Hh2 [Hr2 [[Hs2 Hp2] [He2 Hc2]]]]]].
    { intros t Ht. rewrite Hc1. destruct (eq_dec t k) as [->|]; [contradiction|].
      apply Hin; right; assumption. }
    exists w2. simpl. rewrite (bind_ok _ _ _ _ _ H1). split; [exact H2|].
    repeat split; try congruence.
    + intros [Heq|Ht].
      * subst t. rewrite (proj2 (Hc2 k) Hk), Hc1. destruct (eq_dec k k); [reflexivity|congruence].
      * rewrite (proj1 (Hc2 t) Ht), Hc1. destruct (eq_dec t k) as [->|]; [contradiction|reflexivity].
    + intros Ht. rewrite (proj2 (Hc2 t)) by tauto. rewrite Hc1.
      destruct (eq_dec t k) as [->|]; [exfalso; apply Ht; left; reflexivity|reflexivity].
Qed.

Lemma del_entity_missing e w :
  d_get (_entities (scene w)) e = None -> del_entity e w = (Err MissingEntity, w).
Proof. intros H. unfold del_entity. apply bind_err, entities_getitem_missing, H. Qed.

Lemma del_entity_spec e w d :
  Inv (scene w) -> d_get (_entities (scene w)) e = Some d ->
  exists w', del_entity e w = (Ok tt, w') /\
    heap w' = heap w /\ scene_ref (scene w') = scene_ref (scene w) /\ sys_same w w' /\
    _entities (scene w') = d_del (_entities (scene w)) e /\
    forall t, comp_set (scene w') t =
      if d_mem d t then s_remove (comp_set (scene w) t) e else comp_set (scene w) t.
Proof.
  intros HI Hd. unfold del_entity.
  rewrite (bind_ok _ _ _ _ _ (entities_getitem_ok _ _ _ Hd)).
  destruct (remove_loop_spec e (d_keys d) w) as [w1 [H1 [Hh1 [Hr1 [[Hs1 Hp1] [He1 Hc1]]]]]].
  { eapply (inv_dicts_nodup _ HI); eauto. }
  { intros t Ht. apply (inv_index _ HI). unfold holds. rewrite Hd. apply d_keys_In, Ht. }
  rewrite (bind_ok _ _ _ _ _ H1).
  unfold entities_delitem.
  assert (Hm : d_mem (_entities (scene w1)) e = true)
    by (rewrite He1; unfold d_mem; rewrite Hd; reflexivity).
  rewrite Hm. eexists; split; [reflexivity|]. simpl.
  rewrite Hh1, Hr1, He1. repeat split; try reflexivity; try assumption.
  intros t. destruct (d_mem d t) eqn:Hm'.
  - apply Hc1, d_keys_In, Hm'.
  - apply Hc1. rewrite d_keys_In, Hm'. discriminate.
Qed.

Lemma create_entity_unfold e cs :
  create_entity e cs = (entities_setitem e [];; add_components e cs;; ret e).
Proof. reflexivity. Qed.

(** ** Every operation keeps the two component indexes consistent *)

Lemma inv_pres_refl w : inv_pres w w.
Proof. intros H; exact H. Qed.

Lemma inv_pres_trans w1 w2 w3 : inv_pres w1 w2 -> inv_pres w2 w3 -> inv_pres w1 w3.
Proof. unfold inv_pres; auto. Qed.

Lemma ec_inv_pres w w' : ec_same w w' -> inv_pres w w'.
Proof. intros [He Hc] HI. eapply Inv_ext; eauto. Qed.

Lemma add_component_Inv e c : Stable inv_pres (add_component e c).
Proof.
  intros w HI. destruct (d_get (_entities (scene w)) e) as [d|] eqn:Hd.
  - destruct (add_component_spec e c w d Hd) as [w' [H [_ [_ [_ [He Hc]]]]]].
    rewrite H. eapply Inv_add; eauto.
  - rewrite add_component_missing by assumption. exact HI.
Qed.

Lemma add_components_Inv e cs : Stable inv_pres (add_components e cs).
Proof.
  unfold add_components. apply (stable_for _ inv_pres_refl inv_pres_trans).
  intros c; apply add_component_Inv.
Qed.

Lemma del_component_Inv e t : Stable inv_pres (del_component e t).
Proof.
  intros w HI. destruct (d_get (_entities (scene w)) e) as [d|] eqn:Hd.
  - destruct (d_get d t) as [c|] eqn:Ht.
    + destruct (del_component_spec e t w d c HI Hd Ht) as [w' [H [_ [_ [_ [He Hc]]]]]].
      rewrite H. eapply Inv_del_component; eauto.
    + rewrite (del_component_absent e t w d) by assumption. exact HI.
  - rewrite del_component_missing_entity by assumption. exact HI.
Qed.

Lemma del_entity_Inv e : Stable inv_pres (del_entity e).
Proof.
  intros w HI. destruct (d_get (_entities (scene w)) e) as [d|] eqn:Hd.
  - destruct (del_entity_spec e w d HI Hd) as [w' [H [_ [_ [_ [He Hc]]]]]].
    rewrite H. eapply Inv_del_entity; eauto.
  - rewrite del_entity_missing by assumption. exact HI.
Qed.

Lemma create_entity_Inv e cs w :
  Inv (scene w) -> d_get (_entities (scene w)) e = None ->
  Inv (scene (snd (create_entity e cs w))).
Proof.
  intros HI Hn. rewrite create_entity_unfold.
  set (w1 := snd (entities_setitem e [] w)).
  assert (Hs : entities_setitem e [] w = (Ok tt, w1)) by reflexivity.
  rewrite (bind_ok _ _ _ _ _ Hs).
  assert (HI1 : Inv (scene w1)) by (eapply Inv_fresh; eauto).
  pose proof (add_components_Inv e cs w1 HI1) as HI2.
  unfold bind. destruct (add_components e cs w1) as [[[]|x] w2] eqn:H; simpl in *; exact HI2.
Qed.

Lemma run_op_Inv o w :
  Inv (scene w) -> op_fresh w o = true -> Inv (scene (run_op o w)).
Proof.
  intros HI Hf. pose proof (queries_ec o) as Hq. destruct o; simpl in Hf;
    try solve [apply (ec_inv_pres _ _ (Hq w) HI)].
  - apply create_entity_Inv; [assumption|].
    unfold d_mem in Hf. destruct (d_get _ entity); [discriminate|reflexivity].
  - apply add_component_Inv, HI.
  - apply add_components_Inv, HI.
  - apply del_component_Inv, HI.
  - apply del_entity_Inv, HI.
Qed.

Lemma Inv_init : Inv (scene init_world).
Proof.
  constructor; simpl; try (intros; discriminate); [constructor|].
  intros e t. unfold holds, comp_set; simpl. split; [discriminate|intros []].
Qed.

Lemma run_ops_Inv ops w :
  Inv (scene w) -> ops_fresh ops w = true -> Inv (scene (run_ops ops w)).
Proof.
  revert w; induction ops as [|o r IH]; intros w HI Hf; simpl in *; [assumption|].
  apply andb_true_iff in Hf as [Hf1 Hf2]. apply IH; [apply run_op_Inv|]; assumption.
Qed.

(** ** The scheduler: [insort] keeps the buckets sorted *)

Lemma entity_ops_sys o :
  match o with
  | OpAddSystem _ _ | OpAddSystems _ | OpDelSystem _ => True
  | _ => forall w, sys_same w (run_op o w)
  end.
Proof.
  destruct o; try exact I; cbv beta iota delta [run_op];
    match goal with |- forall w, sys_same w (snd (?m w)) => change (Stable sys_same m) end;
  unfold create_entity, add_component, add_components, components_add, components_remove,
    init_entity, del_component, del_entity, get_entities, get_entities_with,
    get_components_from, has_component, has_components, get_single_component,
    get_component, get_components, try_component, try_components, update;
  sys_stable.
Qed.

Lemma StronglySorted_nth (l : list Z) i j a b :
  StronglySorted Z.lt l -> (i < j)%nat -> nth_error l i = Some a -> nth_error l j = Some b ->
  (a < b)%Z.
Proof.
  revert i j; induction l as [|x r IH]; intros i j Hs Hij Ha Hb; [destruct i; discriminate|].
  inversion Hs as [|? ? Hs' Hf]; subst. destruct i, j; simpl in *; try lia.
  - injection Ha as <-. apply (proj1 (Forall_forall _ _) Hf). eapply nth_error_In; eauto.
  - apply (IH i j); auto; lia.
Qed.

Lemma bisect_loop_S {B} f (a : list (Z * B)) x lo hi :
  bisect_loop (S f) a x lo hi =
  if Nat.ltb lo hi then
    match nth_error a ((lo + hi) / 2)%nat with
    | Some (k, _) =>
        if Z.ltb x k then bisect_loop f a x lo ((lo + hi) / 2)%nat
        else bisect_loop f a x (S ((lo + hi) / 2)) hi
    | None => lo
    end
  else lo.
Proof. reflexivity. Qed.

Lemma bisect_loop_spec {B} (a : list (Z * B)) x fuel lo hi :
  StronglySorted Z.lt (map fst a) ->
  (lo <= hi <= length a)%nat -> (hi - lo < fuel)%nat ->
  (forall i k, (i < lo)%nat -> nth_error (map fst a) i = Some k -> (k <= x)%Z) ->
  (forall i k, (hi <= i)%nat -> nth_error (map fst a) i = Some k -> (x < k)%Z) ->
  (forall i k, (i < bisect_loop fuel a x lo hi)%nat -> nth_error (map fst a) i = Some k -> (k <= x)%Z) /\
  (forall i k, (bisect_loop fuel a x lo hi <= i)%nat -> nth_error (map fst a) i = Some k -> (x < k)%Z).
Proof.
  intros Hs. revert lo hi; induction fuel as [|f IH]; intros lo hi Hb Hf Hlo Hhi; [lia|].
  rewrite bisect_loop_S. destruct (Nat.ltb_spec lo hi) as [Hlt|Hge]; [|assert (lo = hi) by lia; subst hi; split; assumption].
  assert (Hmid : (lo <= (lo + hi) / 2 < hi)%nat).
  { split; [apply Nat.div_le_lower_bound|apply Nat.Div0.div_lt_upper_bound]; lia. }
  set (mid := ((lo + hi) / 2)%nat) in *.
  destruct (nth_error a mid) as [[k v]|] eqn:Hm.
  2:{ apply nth_error_None in Hm. lia. }
  assert (Hk : nth_error (map fst a) mid = Some k) by (rewrite nth_error_map, Hm; reflexivity).
  destruct (Z.ltb_spec x k) as [Hxk|Hkx].
  - apply IH; try lia; [assumption|].
    intros i k' Hi Hi'. destruct (Nat.eq_dec i mid) as [->|Hne].
    + rewrite Hk in Hi'. injection Hi' as <-. assumption.
    + assert (k < k')%Z by (eapply (StronglySorted_nth _ mid i); eauto; lia). lia.
  - apply IH; try lia; [|assumption].
    intros i k' Hi Hi'. destruct (Nat.eq_dec i mid) as [->|Hne].
    + rewrite Hk in Hi'. injection Hi' as <-. assumption.
    + assert (k' < k)%Z by (eapply (StronglySorted_nth _ i mid); eauto; lia). lia.
Qed.

Lemma In_firstn_nth {A} (l : list A) n y :
  In y (firstn n l) -> exists i, (i < n)%nat /\ nth_error l i = Some y.
Proof.
  revert n; induction l as [|x r IH]; intros n H; destruct n; simpl in H; try tauto.
  destruct H as [<-|H].
  - exists O; split; [lia|reflexivity].
  - destruct (IH n H) as [i [Hi Hn]]. exists (S i); split; [lia|assumption].
Qed.

Lemma In_skipn_nth {A} (l : list A) n y :
  In y (skipn n l) -> exists i, (n <= i)%nat /\ nth_error l i = Some y.
Proof.
  revert n; induction l as [|x r IH]; intros n H; destruct n; simpl in H; try tauto.
  - destruct H as [<-|H].
    + exists O; split; [lia|reflexivity].
    + destruct (In_nth_error _ _ H) as [i Hi]. exists (S i); split; [lia|assumption].
  - destruct (IH n H) as [i [Hi Hn]]. exists (S i); split; [lia|assumption].
Qed.

Lemma StronglySorted_insert (l1 l2 : list Z) x :
  StronglySorted Z.lt (l1 ++ l2) -> Forall (fun y => (y < x)%Z) l1 -> Forall (Z.lt x) l2 ->
  StronglySorted Z.lt (l1 ++ x :: l2).
Proof.
  induction l1 as [|y r IH]; simpl; intros Hs H1 H2.
  - constructor; assumption.
  - inversion Hs as [|? ? Hs' Hf]; subst. inversion H1 as [|? ? Hy Hr]; subst.
    constructor; [apply IH; assumption|].
    apply Forall_app in Hf as [Hf1 Hf2]. apply Forall_app; split; [assumption|].
    constructor; [assumption|].
    eapply Forall_impl; [|exact H2]. intros z Hz; simpl in *; lia.
Qed.

Lemma insort_keys {B} (a : list (Z * B)) item :
  map fst (insort a item) =
  firstn (bisect_right a (fst item)) (map fst a) ++ fst item :: skipn (bisect_right a (fst item)) (map fst a).
Proof. unfold insort. rewrite map_app, firstn_map, skipn_map. reflexivity. Qed.

Lemma insort_sorted {B} (a : list (Z * B)) item :
  StronglySorted Z.lt (map fst a) -> ~ In (fst item) (map fst a) ->
  StronglySorted Z.lt (map fst (insort a item)).
Proof.
  intros Hs Hn. rewrite insort_keys.
  set (lo := bisect_right a (fst item)).
  destruct (bisect_loop_spec a (fst item) (S (length a)) 0 (length a) Hs)
    as [P1 P2]; try lia.
  { intros i k Hi Hk. assert (Hk' : nth_error (map fst a) i <> None) by congruence.
    apply nth_error_Some in Hk'. rewrite length_map in Hk'. lia. }
  apply StronglySorted_insert.
  - rewrite <- (firstn_skipn lo (map fst a)) in Hs. exact Hs.
  - apply Forall_forall. intros y Hy. destruct (In_firstn_nth _ _ _ Hy) as [i [Hi Hy']].
    assert (y <= fst item)%Z by (eapply P1; eauto).
    assert (y <> fst item) by (intros ->; apply Hn; eapply nth_error_In; eauto). lia.
  - apply Forall_forall. intros y Hy. destruct (In_skipn_nth _ _ _ Hy) as [i [Hi Hy']].
    eapply P2; eauto.
Qed.

Lemma insort_In {B} (a : list (Z * B)) item p :
  In p (map fst (insort a item)) <-> p = fst item \/ In p (map fst a).
Proof.
  rewrite insort_keys, in_app_iff. simpl.
  pose proof (firstn_skipn (bisect_right a (fst item)) (map fst a)) as E.
  split.
  - intros [H|[H|H]].
    + right; rewrite <- E; apply in_app_iff; left; exact H.
    + left; symmetry; exact H.
    + right; rewrite <- E; apply in_app_iff; right; exact H.
  - intros [H|H]; [right; left; symmetry; exact H|].
    rewrite <- E in H. apply in_app_iff in H. tauto.
Qed.

Lemma update_first_bucket_keys p f ss ss' :
  update_first_bucket p f ss = Some ss' -> map fst ss' = map fst ss.
Proof.
  revert ss'; induction ss as [|[q sys] r IH]; intros ss' H; simpl in H; [discriminate|].
  destruct (Z.eqb q p).
  - injection H as <-. reflexivity.
  - destruct (update_first_bucket p f r) as [r'|] eqn:Hr; simpl in H; [|discriminate].
    injection H as <-. simpl. rewrite (IH r' eq_refl). reflexivity.
Qed.

Lemma list_set_keys {B} (l : list (Z * B)) i p d d' :
  nth_error l i = Some (p, d) -> map fst (list_set l i (p, d')) = map fst l.
Proof.
  revert i; induction l as [|[q e] r IH]; intros i H; destruct i; simpl in *; try discriminate.
  - injection H as -> ->. reflexivity.
  - rewrite (IH i H). reflexivity.
Qed.

(** ** The scheduler invariant is kept by every operation *)

Lemma sysinv_pres_refl w : sysinv_pres w w.
Proof. intros H; exact H. Qed.

Lemma sysinv_pres_trans w1 w2 w3 : sysinv_pres w1 w2 -> sysinv_pres w2 w3 -> sysinv_pres w1 w3.
Proof. unfold sysinv_pres; auto. Qed.

Lemma sys_same_pres w w' : sys_same w w' -> sysinv_pres w w'.
Proof. intros [Hs Hp] [H1 H2]. constructor; rewrite ?Hs, ?Hp; assumption. Qed.

Lemma add_system_SysInv s p : Stable sysinv_pres (add_system s p).
Proof.
  intros w [Hs Hp]. unfold add_system, bind, gets.
  destruct (s_mem (_priorities (scene w)) p) eqn:Hm; simpl.
  - destruct (update_first_bucket p _ (systems_of w)) as [ss'|] eqn:Hu; simpl.
    + apply update_first_bucket_keys in Hu. unfold systems_of in Hu.
      constructor; simpl; rewrite Hu; assumption.
    + constructor; assumption.
  - assert (Hn : ~ In p (map fst (_systems (scene w)))).
    { rewrite <- Hp, <- s_mem_In, Hm. discriminate. }
    constructor; simpl.
    + apply insort_sorted; assumption.
    + intros q. rewrite s_add_In, insort_In, Hp. simpl. tauto.
Qed.

Lemma add_systems_SysInv l : Stable sysinv_pres (add_systems l).
Proof.
  unfold add_systems. generalize (@None Z) as prio.
  induction l as [|[s a] r IH]; intros prio; simpl.
  - apply (stable_ret _ sysinv_pres_refl).
  - destruct (match a with Some p => Some p | None => prio end) as [p|].
    + apply (stable_bind _ sysinv_pres_trans); [apply add_system_SysInv|intros _; apply IH].
    + apply (stable_raise _ sysinv_pres_refl).
Qed.

Lemma del_system_SysInv t : Stable sysinv_pres (del_system t).
Proof.
  intros w [Hs Hp]. unfold del_system, bind, gets, raise.
  destruct (find _ (systems_of w)) as [[priority ?]|]; simpl; [|constructor; assumption].
  destruct (py_index _ priority) as [i|]; simpl; [|constructor; assumption].
  destruct (nth_error (systems_of w) i) as [[p d]|] eqn:Hn; simpl; [|constructor; assumption].
  destruct (d_mem d t); simpl; [|constructor; assumption].
  apply (list_set_keys _ _ _ _ (d_del d t)) in Hn. unfold systems_of in Hn.
  unfold set_systems, modify, map_scene, systems_of. constructor; simpl; rewrite Hn; assumption.
Qed.

Lemma run_op_SysInv o w : SysInv (scene w) -> SysInv (scene (run_op o w)).
Proof.
  pose proof (entity_ops_sys o) as Hq. destruct o;
    try solve [apply (sys_same_pres _ _ (Hq w))].
  - apply add_system_SysInv.
  - apply add_systems_SysInv.
  - apply del_system_SysInv.
Qed.

Lemma run_ops_SysInv ops w : SysInv (scene w) -> SysInv (scene (run_ops ops w)).
Proof.
  revert w; induction ops as [|o r IH]; intros w H; simpl; [assumption|].
  apply IH, run_op_SysInv, H.
Qed.

Lemma SysInv_init : SysInv (scene init_world).
Proof. constructor; simpl; [constructor|tauto]. Qed.

Lemma StronglySorted_snoc {A} (R : A -> A -> Prop) l x :
  StronglySorted R l -> Forall (fun y => R y x) l -> StronglySorted R (l ++ [x]).
Proof.
  induction l as [|y r IH]; simpl; intros Hs Hf.
  - constructor; constructor.
  - inversion Hs; inversion Hf; subst. constructor; [apply IH; assumption|].
    apply Forall_app; split; [assumption|constructor; [assumption|constructor]].
Qed.

Lemma StronglySorted_rev_gt (l : list Z) :
  StronglySorted Z.lt l -> StronglySorted Z.gt (rev l).
Proof.
  induction l as [|x r IH]; simpl; intros Hs; [constructor|].
  inversion Hs as [|? ? Hs' Hf]; subst. apply StronglySorted_snoc; [apply IH, Hs'|].
  apply Forall_forall. intros y Hy. apply <- in_rev in Hy.
  apply (proj1 (Forall_forall _ _) Hf) in Hy. lia.
Qed.

Lemma sorted_buckets_split {B} (l : list (Z * B)) b1 b2 :
  StronglySorted Z.lt (map fst l) -> In b1 l -> In b2 l -> (fst b2 < fst b1)%Z ->
  exists l1 l2 l3, l = l1 ++ b2 :: l2 ++ b1 :: l3.
Proof.
  induction l as [|x r IH]; simpl; intros Hs H1 H2 Hlt; [contradiction|].
  inversion Hs as [|? ? Hs' Hf]; subst.
  assert (Hx : forall b, In b r -> (fst x < fst b)%Z).
  { intros b Hb. apply (proj1 (Forall_forall _ _) Hf). apply in_map, Hb. }
  destruct H2 as [<-|H2].
  - destruct H1 as [<-|H1]; [lia|].
    destruct (in_split _ _ H1) as [l2 [l3 ->]]. exists [], l2, l3. reflexivity.
  - destruct H1 as [<-|H1]; [specialize (Hx _ H2); lia|].
    destruct (IH Hs' H1 H2 Hlt) as [l1 [l2 [l3 ->]]]. exists (x :: l1), l2, l3. reflexivity.
Qed.

(** ** C2: higher-priority buckets run first *)

(** C2.  In any scene built from a new Scene by any sequence of operations,
    [Scene.update] walks the buckets in strictly descending priority, and a
    system of a bucket of priority [p1] is called before a system of a
    bucket of lower priority [p2], whatever order they were added in. *)
Theorem update_higher_priority_first ops p1 d1 p2 d2 s1 s2 :
  In (p1, d1) (_systems (scene (run_ops ops init_world))) ->
  In (p2, d2) (_systems (scene (run_ops ops init_world))) ->
  (p2 < p1)%Z -> In s1 (d_values d1) -> In s2 (d_values d2) ->
  StronglySorted Z.gt (map fst (rev (_systems (scene (run_ops ops init_world))))) /\
  exists a b c, update_order (scene (run_ops ops init_world)) = a ++ s1 :: b ++ s2 :: c.
Proof.
  intros H1 H2 Hlt Hs1 Hs2.
  destruct (run_ops_SysInv ops init_world SysInv_init) as [Hsort _].
  split; [rewrite map_rev; apply StronglySorted_rev_gt, Hsort|].
  destruct (sorted_buckets_split _ (p1, d1) (p2, d2) Hsort H1 H2 Hlt) as [l1 [l2 [l3 E]]].
  destruct (in_split _ _ Hs1) as [x1 [y1 E1]]. destruct (in_split _ _ Hs2) as [x2 [y2 E2]].
  unfold update_order. rewrite E.
  rewrite rev_app_distr. simpl. rewrite rev_app_distr. simpl.
  rewrite !map_app, !concat_app. simpl. rewrite E1, E2.
  exists (concat (map (fun b => d_values (snd b)) (rev l3)) ++ x1),
         (y1 ++ concat (map (fun b => d_values (snd b)) (rev l2)) ++ x2),
         (y2 ++ concat (map (fun b => d_values (snd b)) (rev l1))).
  rewrite !app_nil_r. repeat (rewrite <- !app_assoc; simpl). reflexivity.
Qed.

(** ** C1: [get_entities_with] is the intersection of the type index *)

Lemma mapM_components_getitem ts w :
  exists w', mapM components_getitem ts w = (Ok (map (comp_set (scene w)) ts), w') /\
             ec_same w w'.
Proof.
  revert w; induction ts as [|t r IH]; intros w; simpl.
  - exists w; split; [reflexivity|apply ec_same_refl].
  - destruct (components_getitem_spec t w) as [w1 [H1 [_ [_ [_ Hec1]]]]].
    rewrite (bind_ok _ _ _ _ _ H1).
    destruct (IH w1) as [w2 [H2 Hec2]]. rewrite (bind_ok _ _ _ _ _ H2).
    exists w2; split; [|eapply ec_same_trans; eauto].
    destruct Hec1 as [_ Hc1]. unfold ret. do 3 f_equal. apply map_ext. intros t'. apply Hc1.
Qed.

Lemma set_intersection_In sets x :
  sets <> [] -> In x (set_intersection sets) <-> forall s, In s sets -> In x s.
Proof.
  destruct sets as [|s rest]; [congruence|intros _]. simpl. rewrite filter_In, forallb_forall.
  split.
  - intros [Hx Hr] s' [<-|Hs']; [assumption|]. apply s_mem_In, Hr, Hs'.
  - intros H. split; [apply H; left; reflexivity|]. intros t Ht. apply s_mem_In, H. right; assumption.
Qed.




Lemma update_higher_priority_first_witness :
  StronglySorted Z.gt (map fst (rev (_systems (scene (run_ops
    [OpAddSystem (mkSystem 1 1) 0%Z; OpAddSystem (mkSystem 2 2) 10%Z] init_world))))) /\
  exists a b c, update_order (scene (run_ops
    [OpAddSystem (mkSystem 1 1) 0%Z; OpAddSystem (mkSystem 2 2) 10%Z] init_world)) =
    a ++ mkSystem 2 2 :: b ++ mkSystem 1 1 :: c.
Proof.
  apply (update_higher_priority_first
           [OpAddSystem (mkSystem 1 1) 0%Z; OpAddSystem (mkSystem 2 2) 10%Z]
           10%Z [(2%nat, mkSystem 2 2)] 0%Z [(1%nat, mkSystem 1 1)]);
    vm_compute; auto.
Defined.


(** ** C3: [create_entity] and [get_components] round trip *)

Lemma add_components_dict e cs w d :
  d_get (_entities (scene w)) e = Some d ->
  exists w', add_components e cs w = (Ok tt, w') /\
             d_get (_entities (scene w')) e = Some (fold_comps d cs).
Proof.
  unfold add_components; revert w d; induction cs as [|c r IH]; intros w d Hd; cbn [for_].
  - exists w; split; [reflexivity|exact Hd].
  - destruct (add_component_spec e c w d Hd) as [w1 [H1 [_ [_ [_ [He1 _]]]]]].
    rewrite (bind_ok _ _ _ _ _ H1).
    assert (Hd1 : d_get (_entities (scene w1)) e = Some (d_set d (c_cls c) c)).
    { rewrite He1, d_get_set. destruct (eq_dec e e); [reflexivity|congruence]. }
    destruct (IH w1 _ Hd1) as [w2 [H2 Hd2]]. exists w2. split; [exact H2|exact Hd2].
Qed.

Lemma fold_comps_other d cs k :
  ~ In k (map c_cls cs) -> d_get (fold_comps d cs) k = d_get d k.
Proof.
  unfold fold_comps; revert d; induction cs as [|c r IH]; intros d Hk; simpl; [reflexivity|].
  simpl in Hk. rewrite IH by tauto. rewrite d_get_set.
  destruct (eq_dec k (c_cls c)); [subst; tauto|reflexivity].
Qed.

Lemma fold_comps_get d cs :
  NoDup (map c_cls cs) -> forall c, In c cs -> d_get (fold_comps d cs) (c_cls c) = Some c.
Proof.
  unfold fold_comps; revert d; induction cs as [|c0 r IH]; intros d Hn c Hc; [destruct Hc|].
  simpl in Hn. inversion Hn as [|? ? Hn0 Hr]; subst. simpl.
  destruct Hc as [Heq|Hc]; [subst c|apply IH; assumption].
  change (d_get (fold_comps (d_set d (c_cls c0) c0) r) (c_cls c0) = Some c0).
  rewrite fold_comps_other by exact Hn0. rewrite d_get_set.
  destruct (eq_dec (c_cls c0) (c_cls c0)); [reflexivity|congruence].
Qed.

Lemma mapM_lookup_all (D : list (nat * Component)) cs w :
  (forall c, In c cs -> d_get D (c_cls c) = Some c) ->
  mapM (fun comp_cls => match d_get D comp_cls with
                        | None => raise MissingComponent
                        | Some c => ret c
                        end) (map c_cls cs) w = (Ok cs, w).
Proof.
  induction cs as [|c r IH]; intros H; cbn [map mapM]; [reflexivity|].
  assert (Hc : (match d_get D (c_cls c) with
                | None => raise MissingComponent
                | Some c' => ret c'
                end) w = (Ok c, w)) by (rewrite (H c (or_introl eq_refl)); reflexivity).
  rewrite (bind_ok _ _ _ _ _ Hc).
  rewrite (bind_ok _ _ _ _ _ (IH (fun c' Hc' => H c' (or_intror Hc')))). reflexivity.
Qed.

(** C3.  For components [c1..cn] of pairwise distinct types, in any world,
    [create_entity(c1, ..., cn)] returns its entity [e], and then
    [get_components(e, type(c1), ..., type(cn))] returns [[c1, ..., cn]]. *)
Theorem create_entity_get_components e cs w :
  NoDup (map c_cls cs) ->
  fst (create_entity e cs w) = Ok e /\
  fst (get_components e (map c_cls cs) (snd (create_entity e cs w))) = Ok cs.
Proof.
  intros Hn. rewrite create_entity_unfold.
  set (w1 := snd (entities_setitem e [] w)).
  assert (Hs : entities_setitem e [] w = (Ok tt, w1)) by reflexivity.
  rewrite (bind_ok _ _ _ _ _ Hs).
  assert (Hd1 : d_get (_entities (scene w1)) e = Some []).
  { unfold w1; simpl. rewrite d_get_set. destruct (eq_dec e e); [reflexivity|congruence]. }
  destruct (add_components_dict e cs w1 [] Hd1) as [w2 [H2 Hd2]].
  rewrite (bind_ok _ _ _ _ _ H2). split; [reflexivity|]. simpl.
  unfold get_components. rewrite (bind_ok _ _ _ _ _ (entities_getitem_ok _ _ _ Hd2)).
  rewrite mapM_lookup_all; [reflexivity|]. apply fold_comps_get, Hn.
Qed.

Lemma create_entity_get_components_witness :
  fst (create_entity 5 [cA; cB] init_world) = Ok 5%Z /\
  fst (get_components 5 (map c_cls [cA; cB]) (snd (create_entity 5 [cA; cB] init_world))) =
    Ok [cA; cB].
Proof.
  apply (create_entity_get_components 5 [cA; cB] init_world).
  simpl. constructor; [simpl; lia|]. constructor; [simpl; tauto|constructor].
Defined.

(** ** C8: index consistency on every reachable scene *)

(** C8.  In any scene built from a new Scene by a sequence of operations
    (with fresh entity identifiers), and after any further operation on it,
    the entity index stores a component of type [t] under [e] exactly when
    [e] is in the type index's set for [t]. *)
Theorem index_integrity_preserved ops o :
  ops_fresh ops init_world = true -> op_fresh (run_ops ops init_world) o = true ->
  (forall e t, holds (scene (run_ops ops init_world)) e t = true <->
               In e (comp_set (scene (run_ops ops init_world)) t)) /\
  (forall e t, holds (scene (run_op o (run_ops ops init_world))) e t = true <->
               In e (comp_set (scene (run_op o (run_ops ops init_world))) t)).
Proof.
  intros Hf Ho. pose proof (run_ops_Inv ops init_world Inv_init Hf) as HI.
  split; [apply (inv_index _ HI)|]. apply inv_index, run_op_Inv; assumption.
Qed.

Lemma index_integrity_preserved_witness :
  (forall e t, holds (scene (run_ops ops_abc init_world)) e t = true <->
               In e (comp_set (scene (run_ops ops_abc init_world)) t)) /\
  (forall e t, holds (scene (run_op (OpDelComponent 30 1) (run_ops ops_abc init_world))) e t = true <->
               In e (comp_set (scene (run_op (OpDelComponent 30 1) (run_ops ops_abc init_world))) t)).
Proof.
  apply (index_integrity_preserved ops_abc (OpDelComponent 30 1)); vm_compute; reflexivity.
Defined.

(** ** C10: the [try_*] family and unknown entities *)

(** C10.  For an entity not registered in the Scene, [try_component] and
    [try_components] raise [MissingEntity] (the [except KeyError] clause
    does not catch it) and change nothing; for a registered entity they
    return the component of each type, [None] where it is absent. *)
Theorem try_family_missing_entity e t ts w :
  (d_get (_entities (scene w)) e = None ->
   try_component e t w = (Err MissingEntity, w) /\
   try_components e ts w = (Err MissingEntity, w)) /\
  (forall d, d_get (_entities (scene w)) e = Some d ->
   try_component e t w = (Ok (d_get d t), w) /\
   try_components e ts w = (Ok (map (d_get d) ts), w)).
Proof.
  split.
  - intros H. unfold try_component, try_except_KeyError, try_components, bind, entities_getitem.
    rewrite H. split; reflexivity.
  - intros d H. unfold try_component, try_except_KeyError, try_components, bind, entities_getitem.
    rewrite H. unfold dict_getitem. split.
    + destruct (d_get d t); reflexivity.
    + unfold ret. rewrite (map_ext _ (d_get d)); [reflexivity|].
      intros k. unfold d_mem. destruct (d_get d k); reflexivity.
Qed.

Lemma try_family_missing_entity_witness :
  try_component 99 1 (run_ops ops_abc init_world) =
    (Err MissingEntity, run_ops ops_abc init_world) /\
  try_components 99 [1%nat; 2%nat] (run_ops ops_abc init_world) =
    (Err MissingEntity, run_ops ops_abc init_world).
Proof.
  apply (proj1 (try_family_missing_entity 99 1 [1%nat; 2%nat] (run_ops ops_abc init_world))).
  vm_compute; reflexivity.
Defined.

(** ** C4: [del_system] indexes the bucket list with the priority value *)

(** C4 (slip in [del_system]).  [del_system] finds the bucket holding the
    class, then deletes from [self._systems[priority]], using the bucket's
    priority value as a position in the sorted bucket list.  With a single
    system at priority 5, deleting it raises [IndexError]; with systems at
    priorities -1 and 0, deleting the one at -1 looks in the last bucket and
    raises [KeyError]; only at priority 0 (position 0) does it work. *)
Theorem del_system_priority_as_position :
  fst (del_system 1 (run_ops [OpAddSystem (mkSystem 0 1) 5] init_world)) = Err IndexError /\
  fst (del_system 1 (run_ops [OpAddSystem (mkSystem 0 1) (-1); OpAddSystem (mkSystem 1 2) 0]
                      init_world)) = Err KeyError /\
  fst (del_system 1 (run_ops [OpAddSystem (mkSystem 0 1) 0] init_world)) = Ok tt /\
  _systems (scene (snd (del_system 1 (run_ops [OpAddSystem (mkSystem 0 1) 0] init_world)))) =
    [(0%Z, [])].
Proof. repeat split; vm_compute; reflexivity. Qed.

(** ** C5: [add_systems] has no default priority *)

(** C5 (slip in [add_systems]).  Unlike [add_system], whose [priority]
    defaults to 0, the one-element branch of [add_systems] never assigns
    [priority]: a first entry [(system,)] raises [UnboundLocalError], and
    after [(A, 5)] an entry [(B,)] is scheduled at priority 5, not 0. *)
Theorem add_systems_no_default_priority :
  fst (add_systems [(mkSystem 0 1, None)] init_world) = Err UnboundLocalError /\
  _systems (scene (snd (add_system (mkSystem 0 1) 0 init_world))) =
    [(0%Z, [(1%nat, mkSystem 0 1)])] /\
  _systems (scene (snd (add_systems [(mkSystem 0 1, Some 5%Z); (mkSystem 1 2, None)]
                          init_world))) =
    [(5%Z, [(1%nat, mkSystem 0 1); (2%nat, mkSystem 1 2)])] /\
  _systems (scene (snd (add_systems [(mkSystem 0 1, Some 5%Z); (mkSystem 1 2, Some 0%Z)]
                          init_world))) =
    [(0%Z, [(2%nat, mkSystem 1 2)]); (5%Z, [(1%nat, mkSystem 0 1)])].
Proof. repeat split; vm_compute; reflexivity. Qed.

(** ** C6: operations on a deleted entity *)

Lemma getitem_missing_fst {A} e (k : list (nat * Component) -> M A) w :
  d_get (_entities (scene w)) e = None ->
  fst ((comp_dict <- entities_getitem e;; k comp_dict) w) = Err MissingEntity.
Proof. intros H. rewrite (bind_err _ _ _ _ _ (entities_getitem_missing e w H)). reflexivity. Qed.

Lemma has_components_absent e ts w :
  (forall t, ~ In e (comp_set (scene w) t)) -> fst (has_components e ts w) = Ok false.
Proof.
  intros H. unfold has_components.
  destruct (mapM_components_getitem ts w) as [w1 [H1 _]]. rewrite (bind_ok _ _ _ _ _ H1).
  simpl. f_equal. destruct ts as [|t0 r]; [reflexivity|].
  simpl map. destruct (s_mem _ e) eqn:Hm; [|reflexivity]. exfalso.
  apply s_mem_In in Hm. unfold set_intersection in Hm. apply filter_In in Hm as [Hm _].
  exact (H t0 Hm).
Qed.

Lemma get_entities_with_absent e ts w L :
  (forall t, ~ In e (comp_set (scene w) t)) ->
  fst (get_entities_with ts w) = Ok L -> ~ In e (map fst L).
Proof.
  intros H. unfold get_entities_with. destruct ts as [|t0 r].
  - intros Heq. injection Heq as <-. intros [].
  - destruct (mapM_components_getitem (t0 :: r) w) as [w1 [H1 _]].
    rewrite (bind_ok _ _ _ _ _ H1). intros Heq. injection Heq as <-.
    intros Hin. apply in_map_iff in Hin as [[e' cs] [He Hin]]. simpl in He; subst e'.
    apply in_map_iff in Hin as [[e' d] [HF Hin]]. injection HF as He _. subst e'.
    apply filter_In in Hin as [_ Hp]. apply s_mem_In in Hp.
    unfold set_intersection in Hp. apply filter_In in Hp as [Hp _]. exact (H t0 Hp).
Qed.

(** What the Scene does with an entity that is in neither index. *)
Lemma unregistered_entity_ops w e :
  d_get (_entities (scene w)) e = None -> (forall t, ~ In e (comp_set (scene w) t)) ->
  forall t ts c cs es,
  fst (get_component e t w) = Err MissingEntity /\
  fst (get_components e ts w) = Err MissingEntity /\
  fst (try_component e t w) = Err MissingEntity /\
  fst (try_components e ts w) = Err MissingEntity /\
  fst (add_component e c w) = Err MissingEntity /\
  fst (add_components e (c :: cs) w) = Err MissingEntity /\
  fst (del_component e t w) = Err MissingEntity /\
  fst (has_component e t w) = Err MissingEntity /\
  fst (get_components_from (e :: es) t w) = Err MissingEntity /\
  fst (del_entity e w) = Err MissingEntity /\
  fst (has_components e ts w) = Ok false /\
  (forall L, fst (get_entities_with ts w) = Ok L -> ~ In e (map fst L)).
Proof.
  intros Hn Hc t ts c cs es.
  split; [apply getitem_missing_fst, Hn|].
  split; [apply getitem_missing_fst, Hn|].
  split; [unfold try_component, try_except_KeyError, bind, entities_getitem; rewrite Hn; reflexivity|].
  split; [apply getitem_missing_fst, Hn|].
  split; [apply getitem_missing_fst, Hn|].
  split; [unfold add_components; cbn [for_];
          rewrite (bind_err _ _ _ _ _ (add_component_missing e c w Hn)); reflexivity|].
  split; [apply getitem_missing_fst, Hn|].
  split; [apply getitem_missing_fst, Hn|].
  split; [unfold get_components_from; cbn [mapM]; unfold bind at 1;
          rewrite (bind_err _ _ _ _ _ (entities_getitem_missing e w Hn)); reflexivity|].
  split; [apply getitem_missing_fst, Hn|].
  split; [apply has_components_absent, Hc|].
  intros L. apply get_entities_with_absent, Hc.
Qed.

Lemma comp_set_unregistered w e t :
  Inv (scene w) -> d_get (_entities (scene w)) e = None -> ~ In e (comp_set (scene w) t).
Proof.
  intros HI Hn Hin. apply (inv_index _ HI) in Hin. unfold holds in Hin. rewrite Hn in Hin.
  discriminate.
Qed.

Lemma mapM_pure {A B} (f : A -> M B) (g : A -> res B) l w :
  (forall a, f a w = (g a, w)) -> mapM f l w = (res_map g l, w).
Proof.
  intros H; induction l as [|a r IH]; cbn [mapM res_map]; [reflexivity|].
  unfold bind at 1. rewrite H. destruct (g a) as [b|x]; [|reflexivity].
  unfold bind at 1. rewrite IH. destruct (res_map g r); reflexivity.
Qed.

Lemma get_components_from_eval es t w :
  get_components_from es t w =
  (res_map (fun e => match d_get (_entities (scene w)) e with
                     | None => Err MissingEntity
                     | Some d => match d_get d t with
                                 | None => Err MissingComponent
                                 | Some c => Ok c
                                 end
                     end) es, w).
Proof.
  unfold get_components_from. apply mapM_pure. intros e. unfold bind, entities_getitem.
  destruct (d_get (_entities (scene w)) e) as [d|]; [destruct (d_get d t)|]; reflexivity.
Qed.

Lemma res_map_app_err {A B} (f : A -> res B) l1 x l2 ys y :
  res_map f l1 = Ok ys -> f x = Err y -> res_map f (l1 ++ x :: l2) = Err y.
Proof.
  revert ys; induction l1 as [|a r IH]; intros ys H1 Hx; simpl; [rewrite Hx; reflexivity|].
  simpl in H1. destruct (f a) as [b|z]; [|discriminate].
  destruct (res_map f r) as [ys'|z] eqn:Hr; [|discriminate].
  rewrite (IH ys' eq_refl Hx). reflexivity.
Qed.

(** C6 (counterexample).  After [del_entity(e)], [has_components(e, T)]
    returns [False] instead of raising [MissingEntity] (it only reads the type
    index), and [add_components(e)] with no components returns normally. *)
Lemma del_entity_has_components_counterexample :
  fst (has_components 1 [1%nat] (run_ops [OpCreateEntity 1 [cA]; OpDelEntity 1] init_world))
    = Ok false /\
  fst (add_components 1 [] (run_ops [OpCreateEntity 1 [cA]; OpDelEntity 1] init_world))
    = Ok tt.
Proof. split; vm_compute; reflexivity. Qed.

(** C6 (amended).  In any scene built from a new Scene by a sequence of
    operations (with fresh entity identifiers): [del_entity(e)] on an unknown
    [e] raises [MissingEntity] and changes nothing; on a registered [e] it
    returns, removes [e] from the entity index (leaving the other entities)
    and from every set of the type index.  Afterwards [e] is unknown:
    [get_component], [get_components], [try_component], [try_components],
    [add_component], [add_components] with at least one component,
    [del_component], [has_component], [get_components_from] reaching [e]
    (all entities before it registered and holding the type) and
    [del_entity] raise [MissingEntity], [has_components] returns [False],
    [add_components(e)] with no components does nothing, and [e] is in no
    result of [get_entities_with]. *)
Theorem del_entity_amended ops e :
  ops_fresh ops init_world = true ->
  let w := run_ops ops init_world in
  let w' := snd (del_entity e w) in
  (d_get (_entities (scene w)) e = None -> del_entity e w = (Err MissingEntity, w)) /\
  (d_get (_entities (scene w)) e <> None ->
     fst (del_entity e w) = Ok tt /\
     (forall e', e' <> e -> d_get (_entities (scene w')) e' = d_get (_entities (scene w)) e') /\
     (forall t x, In x (comp_set (scene w') t) <-> In x (comp_set (scene w) t) /\ x <> e)) /\
  d_get (_entities (scene w')) e = None /\
  (forall t ts c cs es,
     fst (get_component e t w') = Err MissingEntity /\
     fst (get_components e ts w') = Err MissingEntity /\
     fst (try_component e t w') = Err MissingEntity /\
     fst (try_components e ts w') = Err MissingEntity /\
     fst (add_component e c w') = Err MissingEntity /\
     fst (add_components e (c :: cs) w') = Err MissingEntity /\
     fst (del_component e t w') = Err MissingEntity /\
     fst (has_component e t w') = Err MissingEntity /\
     fst (get_components_from (e :: es) t w') = Err MissingEntity /\
     fst (del_entity e w') = Err MissingEntity /\
     fst (has_components e ts w') = Ok false /\
     (forall L, fst (get_entities_with ts w') = Ok L -> ~ In e (map fst L))) /\
  add_components e [] w' = (Ok tt, w') /\
  (forall t es1 es2 cs1, fst (get_components_from es1 t w') = Ok cs1 ->
     fst (get_components_from (es1 ++ e :: es2) t w') = Err MissingEntity).
Proof.
  intros Hf. cbv zeta.
  pose proof (run_ops_Inv ops init_world Inv_init Hf) as HI.
  set (w := run_ops ops init_world) in *. clearbody w.
  pose proof (del_entity_Inv e w HI) as HI'.
  assert (Hn' : d_get (_entities (scene (snd (del_entity e w)))) e = None).
  { destruct (d_get (_entities (scene w)) e) as [d|] eqn:Hd.
    - destruct (del_entity_spec e w d HI Hd) as [w1 [Hdel [_ [_ [_ [He1 _]]]]]].
      rewrite Hdel. simpl. rewrite He1, d_get_del. destruct (eq_dec e e); congruence.
    - rewrite (del_entity_missing e w Hd). exact Hd. }
  split; [apply del_entity_missing|].
  split.
  - intros Hsome. destruct (d_get (_entities (scene w)) e) as [d|] eqn:Hd; [|congruence].
    destruct (del_entity_spec e w d HI Hd) as [w1 [Hdel [_ [_ [_ [He1 Hc1]]]]]].
    rewrite Hdel. cbn [fst snd]. split; [reflexivity|]. split.
    + intros e' Hne. rewrite He1, d_get_del. destruct (eq_dec e' e); congruence.
    + intros t x. rewrite Hc1. destruct (d_mem d t) eqn:Hm; [apply s_remove_In|].
      split; [|tauto]. intros Hx. split; [exact Hx|]. intros ->.
      apply (inv_index _ HI) in Hx. unfold holds in Hx. rewrite Hd in Hx. congruence.
  - split; [exact Hn'|]. split; [|split; [reflexivity|]].
    + apply unregistered_entity_ops; [exact Hn'|].
      intros t. apply comp_set_unregistered; assumption.
    + intros t es1 es2 cs1. rewrite !get_components_from_eval. cbn [fst].
      intros H1. apply (res_map_app_err _ _ _ _ cs1); [exact H1|]. rewrite Hn'. reflexivity.
Qed.

Lemma del_entity_amended_witness :
  fst (del_entity 1 (run_ops [OpCreateEntity 1 [cA]] init_world)) = Ok tt /\
  fst (get_component 1 1 (snd (del_entity 1 (run_ops [OpCreateEntity 1 [cA]] init_world))))
    = Err MissingEntity.
Proof.
  assert (Hf : ops_fresh [OpCreateEntity 1 [cA]] init_world = true) by (vm_compute; reflexivity).
  assert (Hs : d_get (_entities (scene (run_ops [OpCreateEntity 1 [cA]] init_world))) 1%Z <> None)
    by (vm_compute; discriminate).
  destruct (del_entity_amended [OpCreateEntity 1 [cA]] 1 Hf) as [_ [H1 [_ [H2 _]]]].
  split; [apply (H1 Hs)|]. apply (H2 1%nat [] cA [] []).
Defined.

(** ** C7: back-references of detached components *)

(** C7 (counterexample).  For a component [cA] attached to entity 1:
    [del_component] clears only its [entity] field, leaving [scene] set, and
    [del_entity] leaves both fields as they were. *)
Lemma back_reference_counterexample :
  fields_of (snd (del_component 1 1 (run_ops [OpCreateEntity 1 [cA]] init_world))) (c_ref cA)
    = mkFields (Val 0%nat) NoneV /\
  fields_of (snd (del_entity 1 (run_ops [OpCreateEntity 1 [cA]] init_world))) (c_ref cA)
    = mkFields (Val 0%nat) (Val 1%Z).
Proof. split; vm_compute; reflexivity. Qed.

(** C7 (amended).  In any scene built from a new Scene by a sequence of
    operations (with fresh entity identifiers), if the registered entity [e]
    holds a component [c] of type [t], [del_component(e, t)] returns, sets
    [c]'s [entity] field to [None] and leaves its [scene] field as it was,
    drops [t] from [e]'s entry of the entity index (other entities
    untouched) and [e] from the type index's set for [t] (other sets
    untouched); if [e] holds no component of type [t] it raises
    [MissingComponent] and changes nothing; an unregistered [e] raises
    [MissingEntity] and changes nothing. *)
Theorem del_component_amended ops e t :
  ops_fresh ops init_world = true ->
  let w := run_ops ops init_world in
  (forall d c, d_get (_entities (scene w)) e = Some d -> d_get d t = Some c ->
     let w' := snd (del_component e t w) in
     fst (del_component e t w) = Ok tt /\
     fields_of w' (c_ref c) = mkFields (f_scene (fields_of w (c_ref c))) NoneV /\
     d_get (_entities (scene w')) e = Some (d_del d t) /\
     (forall e', e' <> e -> d_get (_entities (scene w')) e' = d_get (_entities (scene w)) e') /\
     (forall t' x, In x (comp_set (scene w') t') <->
                   In x (comp_set (scene w) t') /\ ~ (t' = t /\ x = e))) /\
  (forall d, d_get (_entities (scene w)) e = Some d -> d_get d t = None ->
     del_component e t w = (Err MissingComponent, w)) /\
  (d_get (_entities (scene w)) e = None -> del_component e t w = (Err MissingEntity, w)).
Proof.
  intros Hf. cbv zeta.
  pose proof (run_ops_Inv ops init_world Inv_init Hf) as HI.
  set (w := run_ops ops init_world) in *. clearbody w.
  split; [|split; [intros d; apply del_component_absent|apply del_component_missing_entity]].
  intros d c Hd Hc.
  destruct (del_component_spec e t w d c HI Hd Hc) as [w1 [Hdel [Hh1 [_ [_ [He1 Hc1]]]]]].
  rewrite Hdel. cbn [fst snd]. split; [reflexivity|]. split; [|split; [|split]].
  - unfold fields_of at 1. rewrite Hh1, d_get_set. destruct (eq_dec (c_ref c) (c_ref c)); congruence.
  - rewrite He1, d_get_set. destruct (eq_dec e e); congruence.
  - intros e' Hne. rewrite He1, d_get_set. destruct (eq_dec e' e); congruence.
  - intros t' x. rewrite Hc1. destruct (eq_dec t' t) as [->|Hne].
    + rewrite s_remove_In. split; intros [H1 H2]; split; try assumption.
      * intros [_ Hx]. congruence.
      * intros Hx. apply H2. split; [reflexivity|exact Hx].
    + split; [intros Hx; split; [exact Hx|tauto]|tauto].
Qed.

Lemma del_component_amended_witness :
  fst (del_component 1 1 (run_ops [OpCreateEntity 1 [cA]] init_world)) = Ok tt /\
  fields_of (snd (del_component 1 1 (run_ops [OpCreateEntity 1 [cA]] init_world))) (c_ref cA)
    = mkFields (f_scene (fields_of (run_ops [OpCreateEntity 1 [cA]] init_world) (c_ref cA))) NoneV.
Proof.
  assert (Hf : ops_fresh [OpCreateEntity 1 [cA]] init_world = true) by (vm_compute; reflexivity).
  assert (Hd : d_get (_entities (scene (run_ops [OpCreateEntity 1 [cA]] init_world))) 1%Z
               = Some [(1%nat, cA)]) by (vm_compute; reflexivity).
  assert (Hc : d_get [(1%nat, cA)] 1%nat = Some cA) by (vm_compute; reflexivity).
  destruct (proj1 (del_component_amended [OpCreateEntity 1 [cA]] 1 1 Hf) _ _ Hd Hc)
    as [H1 [H2 _]].
  split; [exact H1|exact H2].
Defined.

(** ** C9: the [Singleton] metaclass *)

Lemma d_get_not_key {V} (d : list (nat * V)) k : ~ In k (map fst d) -> d_get d k = None.
Proof.
  induction d as [|[k0 v0] r IH]; simpl; intros H; [reflexivity|].
  destruct (eq_dec k k0) as [->|]; [tauto|apply IH; tauto].
Qed.

Lemma count_cls_app cls a b : count_cls cls (a ++ b) = count_cls cls a + count_cls cls b.
Proof. unfold count_cls. rewrite filter_app, length_app. reflexivity. Qed.

Definition setattr_obj (l a : nat) (v : Z) (ko : nat * Obj) : nat * Obj :=
  let '(k, o) := ko in
  if Nat.eqb k l then (k, mkObj (o_cls o) (d_set (o_attrs o) a v)) else (k, o).

Lemma setattr_objects l a v r : objects (setattr l a v r) = map (setattr_obj l a v) (objects r).
Proof. reflexivity. Qed.

Lemma setattr_count cls l a v objs : count_cls cls (map (setattr_obj l a v) objs) = count_cls cls objs.
Proof.
  unfold count_cls; induction objs as [|[k o] r IH]; simpl; [reflexivity|].
  destruct (Nat.eqb k l); simpl; destruct (Nat.eqb (o_cls o) cls); simpl; rewrite ?IH; reflexivity.
Qed.

Lemma setattr_keys l a v objs : map fst (map (setattr_obj l a v) objs) = map fst objs.
Proof.
  induction objs as [|[k o] r IH]; simpl; [reflexivity|].
  destruct (Nat.eqb k l); simpl; rewrite IH; reflexivity.
Qed.

Lemma setattr_get l a v objs k :
  d_get (map (setattr_obj l a v) objs) k =
  match d_get objs k with
  | Some o => Some (if Nat.eqb k l then mkObj (o_cls o) (d_set (o_attrs o) a v) else o)
  | None => None
  end.
Proof.
  induction objs as [|[k0 o0] r IH]; simpl; [reflexivity|].
  destruct (Nat.eqb k0 l) eqn:Hk; simpl; destruct (eq_dec k k0) as [->|]; rewrite ?Hk; auto.
Qed.

Lemma setattr_RInv l a v r : RInv r -> RInv (setattr l a v r).
Proof.
  intros [Hn Hs Hf].
  assert (Hi : _instances (setattr l a v r) = _instances r) by reflexivity.
  assert (Hr : next_ref (setattr l a v r) = next_ref r) by reflexivity.
  constructor; rewrite ?Hi, ?Hr, ?setattr_objects.
  - intros cls H. rewrite setattr_count. apply Hn, H.
  - intros cls l' H. rewrite setattr_count. destruct (Hs cls l' H) as [Hc [o [Ho Hcls]]].
    split; [exact Hc|]. rewrite setattr_get, Ho.
    eexists; split; [reflexivity|]. destruct (Nat.eqb l' l); assumption.
  - intros k. rewrite setattr_keys. apply Hf.
Qed.

Lemma singleton_call_RInv construct cls args r :
  RInv r -> RInv (snd (singleton_call construct cls args r)).
Proof.
  intros [Hn Hs Hf]. unfold singleton_call.
  destruct (d_get (_instances r) cls) as [l|] eqn:Hi; [constructor; assumption|].
  destruct (construct cls args) as [attrs|x]; [|constructor; assumption].
  assert (Hnew : d_get (objects r) (next_ref r) = None).
  { apply d_get_not_key. intros Hin. apply Hf in Hin. lia. }
  constructor; simpl.
  - intros cls' H. rewrite d_get_set in H. destruct (eq_dec cls' cls) as [->|Hne]; [discriminate|].
    rewrite count_cls_app, (Hn cls' H). unfold count_cls; simpl.
    destruct (Nat.eqb_spec cls cls'); [congruence|reflexivity].
  - intros cls' l' H. rewrite d_get_set in H. rewrite count_cls_app, d_get_app.
    destruct (eq_dec cls' cls) as [->|Hne].
    + injection H as <-. rewrite (Hn cls Hi), Hnew. unfold count_cls; simpl.
      rewrite Nat.eqb_refl. split; [reflexivity|]. simpl.
      destruct (eq_dec (next_ref r) (next_ref r)); [|congruence].
      eexists; split; reflexivity.
    + destruct (Hs cls' l' H) as [Hc [o [Ho Hcls]]]. rewrite Hc, Ho.
      unfold count_cls; simpl. destruct (Nat.eqb_spec cls cls'); [congruence|].
      split; [reflexivity|]. exists o; split; [reflexivity|exact Hcls].
  - intros k. rewrite map_app. simpl. rewrite in_app_iff. intros [Hk|[<-|[]]].
    + apply Hf in Hk. lia.
    + lia.
Qed.

Lemma srun_RInv construct o r : RInv r -> RInv (srun construct o r).
Proof. destruct o; simpl; [apply singleton_call_RInv|apply setattr_RInv]. Qed.

Lemma sruns_RInv construct ops r : RInv r -> RInv (sruns construct ops r).
Proof.
  revert r; induction ops as [|o rest IH]; intros r H; simpl; [exact H|].
  apply IH, srun_RInv, H.
Qed.

Lemma RInv_init : RInv init_registry.
Proof. constructor; simpl; [reflexivity|discriminate|tauto]. Qed.

Lemma srun_instance construct o r cls l :
  d_get (_instances r) cls = Some l -> d_get (_instances (srun construct o r)) cls = Some l.
Proof.
  intros H. destruct o as [cls' args|l' a v]; simpl; [|exact H].
  unfold singleton_call. destruct (d_get (_instances r) cls') as [l0|] eqn:Hi; [exact H|].
  destruct (construct cls' args); [|exact H]. simpl. rewrite d_get_set.
  destruct (eq_dec cls cls') as [->|]; congruence.
Qed.

Lemma sruns_instance construct ops r cls l :
  d_get (_instances r) cls = Some l -> d_get (_instances (sruns construct ops r)) cls = Some l.
Proof.
  revert r; induction ops as [|o rest IH]; intros r H; simpl; [exact H|].
  apply IH, srun_instance, H.
Qed.

Lemma singleton_call_instance construct cls args r l r' :
  singleton_call construct cls args r = (Ok l, r') -> d_get (_instances r') cls = Some l.
Proof.
  unfold singleton_call. destruct (d_get (_instances r) cls) as [l0|] eqn:Hi.
  - intros [= <- <-]. exact Hi.
  - destruct (construct cls args); [|discriminate]. intros [= <- <-]. simpl.
    rewrite d_get_set. destruct (eq_dec cls cls); congruence.
Qed.

Lemma RInv_count_le cls r : RInv r -> count_cls cls (objects r) <= 1.
Proof.
  intros HR. destruct (d_get (_instances r) cls) as [l|] eqn:Hi.
  - rewrite (proj1 (rinv_some _ HR cls l Hi)). lia.
  - rewrite (rinv_none _ HR cls Hi). lia.
Qed.

(** C9.  For a class whose metaclass is [Singleton], after any history of
    construction calls and attribute assignments: a construction call that
    returns [l1] caches it, and every later construction call of the class,
    with any arguments and after any further history, returns the same
    reference [l1] and changes nothing; exactly one object of the class then
    exists (and never more than one at any time); an attribute assigned
    through [l1] is read back through it.  A first call (nothing cached)
    creates a new object from the constructor's result. *)
Theorem singleton_identity construct ops cls args1 l1 r1 :
  singleton_call construct cls args1 (sruns construct ops init_registry) = (Ok l1, r1) ->
  (d_get (_instances (sruns construct ops init_registry)) cls = None ->
     exists attrs, construct cls args1 = Ok attrs /\
       l1 = next_ref (sruns construct ops init_registry) /\
       objects r1 = objects (sruns construct ops init_registry) ++ [(l1, mkObj cls attrs)] /\
       count_cls cls (objects (sruns construct ops init_registry)) = 0) /\
  (forall ops2 args2,
     singleton_call construct cls args2 (sruns construct ops2 r1) =
       (Ok l1, sruns construct ops2 r1) /\
     count_cls cls (objects (sruns construct ops2 r1)) = 1 /\
     (forall a v, getattr l1 a (setattr l1 a v (sruns construct ops2 r1)) = Some v)) /\
  (forall ops', count_cls cls (objects (sruns construct ops' init_registry)) <= 1).
Proof.
  intros Hcall.
  pose proof (sruns_RInv construct ops init_registry RInv_init) as HR0.
  set (r0 := sruns construct ops init_registry) in *. clearbody r0.
  split; [|split].
  - intros Hn. unfold singleton_call in Hcall. rewrite Hn in Hcall.
    destruct (construct cls args1) as [attrs|x]; [|discriminate].
    injection Hcall as <- <-. exists attrs. split; [reflexivity|].
    split; [reflexivity|]. split; [reflexivity|]. apply (rinv_none _ HR0 cls Hn).
  - intros ops2 args2.
    assert (HR1 : RInv r1).
    { change r1 with (snd (Ok l1, r1)). rewrite <- Hcall. apply singleton_call_RInv, HR0. }
    pose proof (sruns_RInv construct ops2 r1 HR1) as HR2.
    pose proof (sruns_instance construct ops2 r1 cls l1
                  (singleton_call_instance _ _ _ _ _ _ Hcall)) as Hi2.
    set (r2 := sruns construct ops2 r1) in *. clearbody r2.
    destruct (rinv_some _ HR2 cls l1 Hi2) as [Hc [o [Ho _]]].
    split; [unfold singleton_call; rewrite Hi2; reflexivity|].
    split; [exact Hc|].
    intros a v. unfold getattr. rewrite setattr_objects, setattr_get, Ho, Nat.eqb_refl.
    simpl. rewrite d_get_set. destruct (eq_dec a a); congruence.
  - intros ops'. apply RInv_count_le, sruns_RInv, RInv_init.
Qed.

Lemma singleton_identity_witness :
  singleton_call (fun _ _ => Ok []) 3 [7%Z]
    (sruns (fun _ _ => Ok []) [SCall 4 []; SSetattr 0 1 5%Z] (mkRegistry [(3, 0)] [(0, mkObj 3 [])] 1))
  = (Ok 0, sruns (fun _ _ => Ok []) [SCall 4 []; SSetattr 0 1 5%Z]
             (mkRegistry [(3, 0)] [(0, mkObj 3 [])] 1)) /\
  count_cls 3 (objects (sruns (fun _ _ => Ok []) [SCall 4 []; SSetattr 0 1 5%Z]
                          (mkRegistry [(3, 0)] [(0, mkObj 3 [])] 1))) = 1.
Proof.
  assert (Hcall : singleton_call (fun _ _ => Ok []) 3 []
                    (sruns (fun _ _ => Ok []) [] init_registry)
                  = (Ok 0, mkRegistry [(3, 0)] [(0, mkObj 3 [])] 1)) by reflexivity.
  destruct (singleton_identity (fun _ _ => Ok []) [] 3 [] 0 _ Hcall) as [_ [H _]].
  destruct (H [SCall 4 []; SSetattr 0 1 5%Z] [7%Z]) as [H1 [H2 _]].
  split; [exact H1|exact H2].
Defined.

(** * Further properties of the Scene *)

(** ** Entity lookups and the entity listing *)

Lemma d_keys_del (d : list (Z * list (nat * Component))) e :
  d_keys (d_del d e) = filter (fun k => negb (Z.eqb k e)) (d_keys d).
Proof.
  unfold d_keys, d_del; induction d as [|[k v] r IH]; simpl; [reflexivity|].
  destruct (eq_dec e k) as [->|Hne]; [rewrite Z.eqb_refl; exact IH|].
  destruct (Z.eqb_spec k e); [congruence|]. simpl. rewrite IH. reflexivity.
Qed.

Lemma get_component_eval e t w d :
  d_get (_entities (scene w)) e = Some d ->
  get_component e t w = (match d_get d t with
                         | Some c => Ok c
                         | None => Err MissingComponent
                         end, w).
Proof.
  intros Hd. unfold get_component. rewrite (bind_ok _ _ _ _ _ (entities_getitem_ok _ _ _ Hd)).
  destruct (d_get d t); reflexivity.
Qed.

Lemma has_component_eval e t w d :
  d_get (_entities (scene w)) e = Some d -> has_component e t w = (Ok (d_mem d t), w).
Proof.
  intros Hd. unfold has_component. rewrite (bind_ok _ _ _ _ _ (entities_getitem_ok _ _ _ Hd)).
  reflexivity.
Qed.

Lemma fold_comps_find d cs t :
  d_get (fold_comps d cs) t =
  match find (fun c => Nat.eqb (c_cls c) t) (rev cs) with
  | Some c => Some c
  | None => d_get d t
  end.
Proof.
  unfold fold_comps; induction cs as [|c cs IH] using rev_ind; simpl; [reflexivity|].
  rewrite fold_left_app, rev_app_distr. simpl. rewrite d_get_set.
  destruct (eq_dec t (c_cls c)) as [->|Hne]; [rewrite Nat.eqb_refl; reflexivity|].
  destruct (Nat.eqb_spec (c_cls c) t); [congruence|]. exact IH.
Qed.

Lemma add_components_spec e cs w d :
  d_get (_entities (scene w)) e = Some d ->
  exists w', add_components e cs w = (Ok tt, w') /\
    d_keys (_entities (scene w')) = d_keys (_entities (scene w)) /\
    d_get (_entities (scene w')) e = Some (fold_comps d cs) /\
    (forall e', e' <> e -> d_get (_entities (scene w')) e' = d_get (_entities (scene w)) e') /\
    (forall t x, In x (comp_set (scene w') t) <->
                 In x (comp_set (scene w) t) \/ (x = e /\ In t (map c_cls cs))).
Proof.
  unfold add_components; revert w d; induction cs as [|c r IH]; intros w d Hd; cbn [for_].
  - exists w. split; [reflexivity|]. split; [reflexivity|]. split; [exact Hd|].
    split; [reflexivity|]. simpl. tauto.
  - destruct (add_component_spec e c w d Hd) as [w1 [H1 [_ [_ [_ [He1 Hc1]]]]]].
    rewrite (bind_ok _ _ _ _ _ H1).
    assert (Hd1 : d_get (_entities (scene w1)) e = Some (d_set d (c_cls c) c)).
    { rewrite He1, d_get_set. destruct (eq_dec e e); [reflexivity|congruence]. }
    destruct (IH w1 _ Hd1) as [w2 [H2 [Hk2 [Hg2 [Ho2 Hc2]]]]].
    exists w2. split; [exact H2|]. split; [|split; [exact Hg2|split]].
    + rewrite Hk2, He1. unfold d_set. unfold d_mem at 1. rewrite Hd. apply d_keys_replace.
    + intros e' Hne. rewrite Ho2 by exact Hne. rewrite He1, d_get_set.
      destruct (eq_dec e' e); [congruence|reflexivity].
    + intros t x. rewrite Hc2, Hc1. simpl.
      destruct (eq_dec t (c_cls c)) as [->|Hne]; [rewrite s_add_In|]; split.
      * intros [[H|H]|[H1' H2']]; [left; exact H|right; split; [exact H|left; reflexivity]|].
        right; split; [exact H1'|right; exact H2'].
      * intros [H|[H1' [H2'|H2']]]; [left; left; exact H|left; right; exact H1'|].
        right; split; assumption.
      * intros [H|[H1' H2']]; [left; exact H|right; split; [exact H1'|right; exact H2']].
      * intros [H|[H1' [H2'|H2']]]; [left; exact H|congruence|right; split; assumption].
Qed.

(** X1.  In any scene built from a new Scene (fresh entity identifiers),
    [get_entities] after [create_entity] of a new entity lists the entities
    as before with the new one last, and after [del_entity(e)] lists them as
    before without [e], in the same order. *)
Theorem get_entities_create_delete ops e cs e2 :
  ops_fresh ops init_world = true ->
  (d_get (_entities (scene (run_ops ops init_world))) e = None ->
   fst (get_entities (snd (create_entity e cs (run_ops ops init_world)))) =
     Ok (d_keys (_entities (scene (run_ops ops init_world))) ++ [e])) /\
  fst (get_entities (snd (del_entity e2 (run_ops ops init_world)))) =
    Ok (filter (fun k => negb (Z.eqb k e2)) (d_keys (_entities (scene (run_ops ops init_world))))).
Proof.
  intros Hf. pose proof (run_ops_Inv ops init_world Inv_init Hf) as HI.
  set (w := run_ops ops init_world) in *. clearbody w. split.
  - intros Hn. rewrite create_entity_unfold.
    set (w1 := snd (entities_setitem e [] w)).
    assert (Hs : entities_setitem e [] w = (Ok tt, w1)) by reflexivity.
    rewrite (bind_ok _ _ _ _ _ Hs).
    assert (Hd1 : d_get (_entities (scene w1)) e = Some []).
    { unfold w1; simpl. rewrite d_get_set. destruct (eq_dec e e); [reflexivity|congruence]. }
    destruct (add_components_spec e cs w1 [] Hd1) as [w2 [H2 [Hk2 _]]].
    rewrite (bind_ok _ _ _ _ _ H2). simpl. unfold get_entities, gets. simpl.
    rewrite Hk2. unfold w1; simpl. unfold d_set, d_mem. rewrite Hn.
    unfold d_keys. rewrite map_app. reflexivity.
  - destruct (d_get (_entities (scene w)) e2) as [d|] eqn:Hd.
    + destruct (del_entity_spec e2 w d HI Hd) as [w1 [Hdel [_ [_ [_ [He1 _]]]]]].
      rewrite Hdel. simpl. unfold get_entities, gets. simpl. rewrite He1, d_keys_del. reflexivity.
    + rewrite (del_entity_missing e2 w Hd). simpl. unfold get_entities, gets. simpl.
      f_equal. symmetry. apply forallb_filter_id, forallb_forall.
      intros k Hk. destruct (Z.eqb_spec k e2) as [->|]; [|reflexivity].
      apply d_keys_In in Hk. unfold d_mem in Hk. rewrite Hd in Hk. discriminate.
Qed.

Lemma get_entities_create_delete_witness :
  fst (get_entities (snd (create_entity 40 [cB] (run_ops ops_abc init_world)))) =
    Ok (d_keys (_entities (scene (run_ops ops_abc init_world))) ++ [40%Z]) /\
  fst (get_entities (snd (del_entity 20 (run_ops ops_abc init_world)))) =
    Ok (filter (fun k => negb (Z.eqb k 20)) (d_keys (_entities (scene (run_ops ops_abc init_world))))).
Proof.
  assert (Hf : ops_fresh ops_abc init_world = true) by (vm_compute; reflexivity).
  destruct (get_entities_create_delete ops_abc 40 [cB] 20 Hf) as [H1 H2].
  split; [apply H1; vm_compute; reflexivity|exact H2].
Defined.

(** X2.  After [create_entity(c1, ..., cn)] returns [e], in any world: for
    each type [t], [get_component(e, t)] returns the last of [c1..cn] of type
    [t] (a later component of the same type overwrites an earlier one) and
    raises [MissingComponent] if none has type [t]; the type index's set for
    [t] gains exactly [e] when some [ci] has type [t]; other entities keep
    their components. *)
Theorem create_entity_contents e cs w t :
  fst (get_component e t (snd (create_entity e cs w))) =
    match find (fun c => Nat.eqb (c_cls c) t) (rev cs) with
    | Some c => Ok c
    | None => Err MissingComponent
    end /\
  (forall x, In x (comp_set (scene (snd (create_entity e cs w))) t) <->
             In x (comp_set (scene w) t) \/ (x = e /\ In t (map c_cls cs))) /\
  (forall e', e' <> e ->
     d_get (_entities (scene (snd (create_entity e cs w)))) e' = d_get (_entities (scene w)) e').
Proof.
  rewrite create_entity_unfold.
  set (w1 := snd (entities_setitem e [] w)).
  assert (Hs : entities_setitem e [] w = (Ok tt, w1)) by reflexivity.
  rewrite (bind_ok _ _ _ _ _ Hs).
  assert (Hd1 : d_get (_entities (scene w1)) e = Some []).
  { unfold w1; simpl. rewrite d_get_set. destruct (eq_dec e e); [reflexivity|congruence]. }
  destruct (add_components_spec e cs w1 [] Hd1) as [w2 [H2 [_ [Hg2 [Ho2 Hc2]]]]].
  rewrite (bind_ok _ _ _ _ _ H2). cbn [snd ret].
  split; [|split].
  - rewrite (get_component_eval e t w2 _ Hg2), fold_comps_find. simpl.
    destruct (find _ (rev cs)); reflexivity.
  - intros x. rewrite Hc2. reflexivity.
  - intros e' Hne. rewrite Ho2 by exact Hne. unfold w1; simpl. rewrite d_get_set.
    destruct (eq_dec e' e); [congruence|reflexivity].
Qed.

(** ** Adding and removing one component *)

(** X3.  For a registered entity [e], in any world, [add_component(e, c)]
    returns; afterwards [get_component(e, type(c))] is [c], the other types
    of [e] read as before, [e] is in the type index's set for [type(c)],
    [c]'s [scene] and [entity] fields are the Scene and [e], and no other
    component's fields change (a component of the same type that [c]
    replaces keeps its back-reference). *)
Theorem add_component_roundtrip e c w d :
  d_get (_entities (scene w)) e = Some d ->
  fst (add_component e c w) = Ok tt /\
  fst (get_component e (c_cls c) (snd (add_component e c w))) = Ok c /\
  (forall t, t <> c_cls c ->
     fst (get_component e t (snd (add_component e c w))) = fst (get_component e t w)) /\
  In e (comp_set (scene (snd (add_component e c w))) (c_cls c)) /\
  fields_of (snd (add_component e c w)) (c_ref c) = mkFields (Val (scene_ref (scene w))) (Val e) /\
  (forall l, l <> c_ref c -> fields_of (snd (add_component e c w)) l = fields_of w l).
Proof.
  intros Hd. destruct (add_component_spec e c w d Hd) as [w' [H [Hh [_ [_ [He Hc]]]]]].
  rewrite H. cbn [fst snd].
  assert (Hd' : d_get (_entities (scene w')) e = Some (d_set d (c_cls c) c)).
  { rewrite He, d_get_set. destruct (eq_dec e e); [reflexivity|congruence]. }
  split; [reflexivity|]. split; [|split; [|split; [|split]]].
  - rewrite (get_component_eval _ _ _ _ Hd'), d_get_set.
    destruct (eq_dec (c_cls c) (c_cls c)); [reflexivity|congruence].
  - intros t Hne. rewrite (get_component_eval _ _ _ _ Hd'), (get_component_eval _ _ _ _ Hd).
    rewrite d_get_set. destruct (eq_dec t (c_cls c)); [congruence|reflexivity].
  - rewrite Hc. destruct (eq_dec (c_cls c) (c_cls c)); [|congruence].
    apply s_add_In. right; reflexivity.
  - unfold fields_of. rewrite Hh, d_get_set. destruct (eq_dec (c_ref c) (c_ref c)); congruence.
  - intros l Hne. unfold fields_of. rewrite Hh, d_get_set.
    destruct (eq_dec l (c_ref c)); [congruence|reflexivity].
Qed.

Lemma add_component_roundtrip_witness :
  fst (add_component 10 (mkComponent 5 1) (run_ops ops_abc init_world)) = Ok tt /\
  fst (get_component 10 1 (snd (add_component 10 (mkComponent 5 1) (run_ops ops_abc init_world))))
    = Ok (mkComponent 5 1).
Proof.
  assert (Hd : d_get (_entities (scene (run_ops ops_abc init_world))) 10%Z = Some [(1%nat, cA)])
    by (vm_compute; reflexivity).
  destruct (add_component_roundtrip 10 (mkComponent 5 1) _ _ Hd) as [H1 [H2 _]].
  split; [exact H1|exact H2].
Defined.

(** X4.  In any scene built from a new Scene (fresh entity identifiers), if
    entity [e] holds a component of type [t], then after [del_component(e, t)]:
    [has_component(e, t)] is [False], [get_component(e, t)] and a second
    [del_component(e, t)] raise [MissingComponent], and [e]'s other types
    read as before. *)
Theorem del_component_roundtrip ops e t :
  ops_fresh ops init_world = true ->
  holds (scene (run_ops ops init_world)) e t = true ->
  fst (has_component e t (snd (del_component e t (run_ops ops init_world)))) = Ok false /\
  fst (get_component e t (snd (del_component e t (run_ops ops init_world)))) = Err MissingComponent /\
  fst (del_component e t (snd (del_component e t (run_ops ops init_world)))) = Err MissingComponent /\
  (forall t', t' <> t ->
     fst (get_component e t' (snd (del_component e t (run_ops ops init_world)))) =
     fst (get_component e t' (run_ops ops init_world))).
Proof.
  intros Hf Hh. pose proof (run_ops_Inv ops init_world Inv_init Hf) as HI.
  set (w := run_ops ops init_world) in *. clearbody w.
  unfold holds in Hh. destruct (d_get (_entities (scene w)) e) as [d|] eqn:Hd; [|discriminate].
  destruct (proj1 (d_mem_get d t) Hh) as [c Hc].
  destruct (del_component_spec e t w d c HI Hd Hc) as [w' [H [_ [_ [_ [He _]]]]]].
  rewrite H. cbn [snd].
  assert (Hd' : d_get (_entities (scene w')) e = Some (d_del d t)).
  { rewrite He, d_get_set. destruct (eq_dec e e); [reflexivity|congruence]. }
  assert (Ht : d_get (d_del d t) t = None).
  { rewrite d_get_del. destruct (eq_dec t t); [reflexivity|congruence]. }
  split; [|split; [|split]].
  - rewrite (has_component_eval _ _ _ _ Hd'). unfold d_mem. rewrite Ht. reflexivity.
  - rewrite (get_component_eval _ _ _ _ Hd'), Ht. reflexivity.
  - rewrite (del_component_absent _ _ _ _ Hd' Ht). reflexivity.
  - intros t' Hne. rewrite (get_component_eval _ _ _ _ Hd'), (get_component_eval _ _ _ _ Hd).
    rewrite d_get_del. destruct (eq_dec t' t); [congruence|reflexivity].
Qed.

Lemma del_component_roundtrip_witness :
  fst (has_component 30 1 (snd (del_component 30 1 (run_ops ops_abc init_world)))) = Ok false /\
  fst (get_component 30 2 (snd (del_component 30 1 (run_ops ops_abc init_world)))) =
    fst (get_component 30 2 (run_ops ops_abc init_world)).
Proof.
  destruct (del_component_roundtrip ops_abc 30 1) as [H1 [_ [_ H4]]];
    [vm_compute; reflexivity|vm_compute; reflexivity|].
  split; [exact H1|apply H4; discriminate].
Defined.

(** ** Membership tests and lookups *)

(** X5.  In any scene built from a new Scene (fresh entity identifiers),
    [has_components(e, T1..Tk)] is [True] exactly when [k >= 1] and [e] holds
    every [Ti] ([False] for no types, and for an unregistered [e]), and
    [has_component(e, T)] is whether [e] holds [T] for a registered [e] and
    raises [MissingEntity] otherwise. *)
Theorem has_components_holds ops e ts t :
  ops_fresh ops init_world = true ->
  fst (has_components e ts (run_ops ops init_world)) =
    Ok (match ts with
        | [] => false
        | _ :: _ => forallb (holds (scene (run_ops ops init_world)) e) ts
        end) /\
  (d_mem (_entities (scene (run_ops ops init_world))) e = true ->
   fst (has_component e t (run_ops ops init_world)) = Ok (holds (scene (run_ops ops init_world)) e t)) /\
  (d_mem (_entities (scene (run_ops ops init_world))) e = false ->
   fst (has_component e t (run_ops ops init_world)) = Err MissingEntity).
Proof.
  intros Hf. pose proof (run_ops_Inv ops init_world Inv_init Hf) as HI.
  set (w := run_ops ops init_world) in *. clearbody w. split; [|split].
  - unfold has_components. destruct (mapM_components_getitem ts w) as [w1 [H1 _]].
    rewrite (bind_ok _ _ _ _ _ H1). destruct ts as [|t0 r]; [reflexivity|].
    cbn [fst ret map]. f_equal. apply eq_iff_eq_true.
    rewrite s_mem_In, set_intersection_In by discriminate. rewrite forallb_forall.
    split.
    + intros H t' Ht'. apply (inv_index _ HI), H, (in_map (comp_set (scene w)) (t0 :: r)), Ht'.
    + intros H s Hs. apply (in_map_iff (comp_set (scene w)) (t0 :: r)) in Hs as [t' [<- Ht']].
      apply (inv_index _ HI), H, Ht'.
  - intros Hm. unfold d_mem in Hm. destruct (d_get (_entities (scene w)) e) as [d|] eqn:Hd;
      [|discriminate].
    rewrite (has_component_eval _ _ _ _ Hd). unfold holds. rewrite Hd. reflexivity.
  - intros Hm. unfold d_mem in Hm. destruct (d_get (_entities (scene w)) e) as [d|] eqn:Hd;
      [discriminate|].
    apply getitem_missing_fst, Hd.
Qed.

Lemma has_components_holds_witness :
  fst (has_components 30 [1%nat; 2%nat] (run_ops ops_abc init_world)) =
    Ok (forallb (holds (scene (run_ops ops_abc init_world)) 30) [1%nat; 2%nat]) /\
  fst (has_component 30 1 (run_ops ops_abc init_world)) =
    Ok (holds (scene (run_ops ops_abc init_world)) 30 1).
Proof.
  destruct (has_components_holds ops_abc 30 [1%nat; 2%nat] 1) as [H1 [H2 _]];
    [vm_compute; reflexivity|].
  split; [exact H1|apply H2; vm_compute; reflexivity].
Defined.

(** X6.  In any scene built from a new Scene (fresh entity identifiers),
    [get_single_component(T)] raises [StopIteration] when no entity holds
    [T], and otherwise returns a component of type [T] that some entity of
    the type index's set for [T] holds. *)
Theorem get_single_component_spec ops t :
  ops_fresh ops init_world = true ->
  (comp_set (scene (run_ops ops init_world)) t = [] ->
   fst (get_single_component t (run_ops ops init_world)) = Err StopIteration) /\
  (comp_set (scene (run_ops ops init_world)) t <> [] ->
   exists e d c, fst (get_single_component t (run_ops ops init_world)) = Ok c /\
     d_get (_entities (scene (run_ops ops init_world))) e = Some d /\
     d_get d t = Some c /\ c_cls c = t /\ In e (comp_set (scene (run_ops ops init_world)) t)).
Proof.
  intros Hf. pose proof (run_ops_Inv ops init_world Inv_init Hf) as HI.
  set (w := run_ops ops init_world) in *. clearbody w.
  destruct (components_getitem_spec t w) as [w1 [H1 [_ [_ [_ [He1 _]]]]]].
  unfold get_single_component. rewrite (bind_ok _ _ _ _ _ H1).
  split; intros Hs.
  - rewrite Hs. reflexivity.
  - destruct (comp_set (scene w) t) as [|e rest] eqn:Hc; [congruence|].
    assert (Hin : In e (comp_set (scene w) t)) by (rewrite Hc; left; reflexivity).
    pose proof Hin as Hh. apply (inv_index _ HI) in Hh. unfold holds in Hh.
    destruct (d_get (_entities (scene w)) e) as [d|] eqn:Hd; [|discriminate].
    destruct (proj1 (d_mem_get d t) Hh) as [c Hct].
    exists e, d, c.
    assert (Hd1 : d_get (_entities (scene w1)) e = Some d) by (rewrite He1; exact Hd).
    rewrite (bind_ok _ _ _ _ _ (entities_getitem_ok _ _ _ Hd1)).
    unfold dict_getitem. rewrite Hct.
    split; [reflexivity|]. split; [exact Hd|]. split; [reflexivity|].
    split; [apply (inv_cls _ HI e d t c Hd Hct)|left; reflexivity].
Qed.

Lemma get_single_component_spec_witness :
  exists e d c, fst (get_single_component 2 (run_ops ops_abc init_world)) = Ok c /\
    d_get (_entities (scene (run_ops ops_abc init_world))) e = Some d /\
    d_get d 2%nat = Some c /\ c_cls c = 2%nat /\
    In e (comp_set (scene (run_ops ops_abc init_world)) 2).
Proof.
  apply (get_single_component_spec ops_abc 2); [vm_compute; reflexivity|vm_compute; discriminate].
Defined.

Lemma res_map_ok {A B} (f : A -> res B) l bs :
  res_map f l = Ok bs <-> Forall2 (fun a b => f a = Ok b) l bs.
Proof.
  revert bs; induction l as [|a r IH]; intros bs; simpl.
  - split; [intros [= <-]; constructor|intros H; inversion H; reflexivity].
  - destruct (f a) as [b|x] eqn:Hf.
    + destruct (res_map f r) as [bs'|x] eqn:Hr.
      * split.
        -- intros [= <-]. constructor; [exact Hf|apply IH; reflexivity].
        -- intros H. inversion H as [|? b' ? bs'' Hb Hrest]; subst.
           rewrite Hf in Hb. injection Hb as ->. apply IH in Hrest. congruence.
      * split; [discriminate|]. intros H. inversion H as [|? b' ? bs'' Hb Hrest]; subst.
        apply IH in Hrest. congruence.
    + split; [discriminate|]. intros H. inversion H as [|? b' ? bs'' Hb Hrest]; subst. congruence.
Qed.

Lemma res_map_err {A B} (f : A -> res B) l x :
  res_map f l = Err x -> exists a, In a l /\ f a = Err x.
Proof.
  induction l as [|a r IH]; simpl; [discriminate|].
  destruct (f a) as [b|y] eqn:Hf.
  - destruct (res_map f r) eqn:Hr; [discriminate|]. intros [= ->].
    destruct (IH eq_refl) as [a' [Ha' Hfa']]. exists a'. split; [right|]; assumption.
  - intros [= ->]. exists a. split; [left; reflexivity|exact Hf].
Qed.



(** X7.  In any world, [get_components_from(entities, T)] (run to the end)
    changes nothing; it returns [cs] exactly when every entity of the list is
    registered and holds a component of type [T], [cs] being these
    components in the order of the list; otherwise it raises
    [MissingEntity] or [MissingComponent] for the first entity that fails. *)
Theorem get_components_from_spec es t w :
  snd (get_components_from es t w) = w /\
  (forall cs, fst (get_components_from es t w) = Ok cs <->
     Forall2 (fun e c => exists d, d_get (_entities (scene w)) e = Some d /\ d_get d t = Some c)
             es cs) /\
  (forall x, fst (get_components_from es t w) = Err x ->
     exists e, In e es /\
       ((x = MissingEntity /\ d_get (_entities (scene w)) e = None) \/
        (x = MissingComponent /\ exists d, d_get (_entities (scene w)) e = Some d /\ d_get d t = None))).
Proof.
  rewrite get_components_from_eval. cbn [fst snd]. split; [reflexivity|]. split.
  - intros cs. rewrite res_map_ok. split; apply Forall2_impl.
    + intros e c H. destruct (d_get _ e) as [d|]; [|discriminate].
      exists d. split; [reflexivity|]. destruct (d_get d t); [congruence|discriminate].
    + intros e c [d [Hd Hc]]. rewrite Hd, Hc. reflexivity.
  - intros x Hx. apply res_map_err in Hx as [e [He Hfe]]. exists e. split; [exact He|].
    destruct (d_get _ e) as [d|]; [|left; split; [congruence|reflexivity]].
    destruct (d_get d t) eqn:Ht; [discriminate|]. right. split; [congruence|].
    exists d. split; [reflexivity|exact Ht].
Qed.

Lemma get_components_eval e ts w d :
  d_get (_entities (scene w)) e = Some d ->
  get_components e ts w =
  (res_map (fun t => match d_get d t with None => Err MissingComponent | Some c => Ok c end) ts, w).
Proof.
  intros Hd. unfold get_components. rewrite (bind_ok _ _ _ _ _ (entities_getitem_ok _ _ _ Hd)).
  apply mapM_pure. intros t. destruct (d_get d t); reflexivity.
Qed.

(** X8.  For a registered entity [e] with components [d], in any world,
    [get_components(e, T1..Tk)] changes nothing and returns [cs] exactly
    when [cs] lists [e]'s components of types [T1..Tk] in that order (so
    [[]] for no types); it raises [MissingComponent] exactly when [e] lacks
    one of the [Ti]. *)
Theorem get_components_spec e ts w d :
  d_get (_entities (scene w)) e = Some d ->
  snd (get_components e ts w) = w /\
  (forall cs, fst (get_components e ts w) = Ok cs <-> map Some cs = map (d_get d) ts) /\
  (fst (get_components e ts w) = Err MissingComponent <-> exists t, In t ts /\ d_get d t = None).
Proof.
  intros Hd. rewrite (get_components_eval _ _ _ _ Hd). cbn [fst snd].
  split; [reflexivity|]. split.
  - intros cs. rewrite res_map_ok. revert cs; induction ts as [|t r IH]; intros cs.
    + split; [intros H; inversion H; reflexivity|intros H; destruct cs; [constructor|discriminate]].
    + split.
      * intros H. inversion H as [|? c ? cs' Hc Hr]; subst. simpl.
        destruct (d_get d t) eqn:Ht; [|discriminate]. injection Hc as ->.
        f_equal. apply IH, Hr.
      * intros H. destruct cs as [|c cs']; [discriminate|]. simpl in H. injection H as Hc Hr.
        constructor; [rewrite <- Hc; reflexivity|apply IH, Hr].
  - split.
    + intros Hx. apply res_map_err in Hx as [t [Ht Hft]]. exists t. split; [exact Ht|].
      destruct (d_get d t); [discriminate|reflexivity].
    + intros [t [Ht Hn]]. induction ts as [|t0 r IH]; [destruct Ht|]. simpl.
      destruct Ht as [<-|Ht].
      * rewrite Hn. reflexivity.
      * destruct (d_get d t0); [|reflexivity]. rewrite (IH Ht). reflexivity.
Qed.

Lemma get_components_spec_witness :
  snd (get_components 30 [2%nat; 1%nat] (run_ops ops_abc init_world)) = run_ops ops_abc init_world /\
  (forall cs, fst (get_components 30 [2%nat; 1%nat] (run_ops ops_abc init_world)) = Ok cs <->
     map Some cs = map (d_get [(1%nat, cA); (2%nat, cB)]) [2%nat; 1%nat]) /\
  (fst (get_components 30 [2%nat; 1%nat] (run_ops ops_abc init_world)) = Err MissingComponent <->
     exists t, In t [2%nat; 1%nat] /\ d_get [(1%nat, cA); (2%nat, cB)] t = None).
Proof. apply get_components_spec. vm_compute. reflexivity. Defined.

(** ** Read-only methods *)

Lemma heap_same_refl w : heap_same w w.
Proof. reflexivity. Qed.

Lemma heap_same_trans w1 w2 w3 : heap_same w1 w2 -> heap_same w2 w3 -> heap_same w1 w3.
Proof. unfold heap_same; congruence. Qed.

Lemma components_getitem_heap t : Stable heap_same (components_getitem t).
Proof. intros w. unfold components_getitem, heap_same. destruct (d_get _ t); reflexivity. Qed.

#[local] Hint Resolve components_getitem_heap : core.

Ltac heap_stable := repeat (stable_step heap_same_refl heap_same_trans; eauto).

Lemma queries_heap o : is_query o = true -> forall w, heap_same w (run_op o w).
Proof.
  destruct o; intros Hq; try discriminate; cbv beta iota delta [run_op];
    match goal with |- forall w, heap_same w (snd (?m w)) => change (Stable heap_same m) end;
  unfold get_entities, get_entities_with, get_components_from, has_component, has_components,
    get_single_component, get_component, get_components, try_component, try_components, update;
  heap_stable.
Qed.

(** X9.  The read-only methods ([get_entities], [get_entities_with],
    [get_components_from], [has_component], [has_components],
    [get_single_component], [get_component], [get_components],
    [try_component], [try_components]) leave, whether they return
    or raise, the entity index, every set of the type index, the scheduler
    and every component's [scene]/[entity] fields as they were. *)
Theorem queries_leave_state o w :
  is_query o = true ->
  ec_same w (run_op o w) /\ sys_same w (run_op o w) /\ heap (run_op o w) = heap w.
Proof.
  intros Hq. split; [|split; [|apply (queries_heap o Hq w)]].
  - pose proof (queries_ec o) as H. destruct o; try discriminate; apply H.
  - pose proof (entity_ops_sys o) as H. destruct o; try discriminate; apply H.
Qed.

Lemma queries_leave_state_witness :
  ec_same w_abc (run_op (OpHasComponents 10 [1%nat; 7%nat]) w_abc) /\
  sys_same w_abc (run_op (OpHasComponents 10 [1%nat; 7%nat]) w_abc) /\
  heap (run_op (OpHasComponents 10 [1%nat; 7%nat]) w_abc) = heap w_abc.
Proof. apply queries_leave_state. reflexivity. Defined.

Lemma map_fst_filter_key {B} (g : Z -> bool) (l : list (Z * B)) :
  map fst (filter (fun '(e, _) => g e) l) = filter g (map fst l).
Proof.
  induction l as [|[e b] r IH]; simpl; [reflexivity|]. destruct (g e); simpl; rewrite IH; reflexivity.
Qed.

(** X10.  For at least one type, in any world, [get_entities_with(T1..Tk)]
    yields the entities holding all of [T1..Tk] in the order of the entity
    index, i.e. in the order the entities were created. *)
Theorem get_entities_with_order ts w :
  ts <> [] ->
  exists L, fst (get_entities_with ts w) = Ok L /\
    map fst L = filter (fun e => forallb (fun t => s_mem (comp_set (scene w) t) e) ts)
                       (d_keys (_entities (scene w))).
Proof.
  intros Hts. destruct (mapM_components_getitem ts w) as [w1 [H1 [He1 _]]].
  destruct ts as [|t0 r]; [congruence|].
  unfold get_entities_with. rewrite (bind_ok _ _ _ _ _ H1).
  set (ts := t0 :: r) in *.
  set (sets := map (comp_set (scene w)) ts) in *.
  set (F := fun '(entity, entity_dict) =>
              (entity, res_map (dict_getitem entity_dict) ts) : Z * res (list Component)).
  set (P := fun '(entity, _) => s_mem (set_intersection sets) entity : bool).
  exists (map F (filter P (_entities (scene w)))).
  split; [rewrite <- He1; reflexivity|].
  rewrite map_map. rewrite (map_ext (fun x => fst (F x)) fst) by (intros [a b]; reflexivity).
  unfold P. rewrite (map_fst_filter_key (fun e => s_mem (set_intersection sets) e)).
  apply filter_ext. intros e. apply eq_iff_eq_true.
  rewrite s_mem_In, set_intersection_In by (unfold sets; simpl; discriminate).
  rewrite forallb_forall. split.
  - intros H t Ht. apply s_mem_In, H, (in_map (comp_set (scene w)) ts), Ht.
  - intros H s Hs. apply (in_map_iff (comp_set (scene w)) ts) in Hs as [t [<- Ht]].
    apply s_mem_In, H, Ht.
Qed.

Lemma get_entities_with_order_witness :
  exists L, fst (get_entities_with [1%nat] w_abc) = Ok L /\
    map fst L = filter (fun e => forallb (fun t => s_mem (comp_set (scene w_abc) t) e) [1%nat])
                       (d_keys (_entities (scene w_abc))).
Proof. apply get_entities_with_order. discriminate. Defined.

(** ** The scheduler *)

(** X11.  In any scene built from a new Scene by any operations, the
    buckets of [_systems] have strictly increasing priorities (no two
    buckets share a priority) and [_priorities] is exactly the set of the
    buckets' priorities. *)
Theorem scheduler_invariant ops :
  StronglySorted Z.lt (map fst (_systems (scene (run_ops ops init_world)))) /\
  (forall p, In p (_priorities (scene (run_ops ops init_world))) <->
             In p (map fst (_systems (scene (run_ops ops init_world))))).
Proof.
  destruct (run_ops_SysInv ops init_world SysInv_init) as [Hs Hp]. split; assumption.
Qed.

Lemma StronglySorted_lt_NoDup (l : list Z) : StronglySorted Z.lt l -> NoDup l.
Proof.
  induction l as [|x r IH]; intros H; [constructor|].
  apply StronglySorted_inv in H as [Hs Hf]. constructor; [|apply IH, Hs].
  intros Hin. rewrite Forall_forall in Hf. specialize (Hf x Hin). lia.
Qed.

Lemma insort_In_pair {B} (a : list (Z * B)) item x :
  In x (insort a item) <-> x = item \/ In x a.
Proof.
  unfold insort. rewrite in_app_iff. simpl.
  pose proof (firstn_skipn (bisect_right a (fst item)) a) as E.
  split.
  - intros [H|[H|H]]; [right; rewrite <- E; apply in_app_iff; left; exact H|left; congruence|].
    right; rewrite <- E; apply in_app_iff; right; exact H.
  - intros [H|H]; [right; left; congruence|]. rewrite <- E in H. apply in_app_iff in H. tauto.
Qed.

Lemma d_get_notin {K V} `{EqDec K} (d : list (K * V)) k : ~ In k (map fst d) -> d_get d k = None.
Proof.
  induction d as [|[k0 v0] r IH]; simpl; intros Hn; [reflexivity|].
  destruct (eq_dec k k0) as [->|]; [tauto|apply IH; tauto].
Qed.

Lemma update_first_bucket_In p f ss d0 :
  NoDup (map fst ss) -> d_get ss p = Some d0 ->
  exists ss', update_first_bucket p f ss = Some ss' /\
    forall x, In x ss' <-> x = (p, f d0) \/ (In x ss /\ fst x <> p).
Proof.
  induction ss as [|[q sys] r IH]; simpl; intros Hnd Hg; [discriminate|].
  inversion Hnd as [|? ? Hq Hr]; subst.
  destruct (eq_dec p q) as [<-|Hne].
  - injection Hg as <-. rewrite Z.eqb_refl. eexists; split; [reflexivity|].
    intros x. simpl. split.
    + intros [<-|Hx]; [left; reflexivity|right; split; [right; exact Hx|]].
      intros Heq. apply Hq. rewrite <- Heq. apply in_map, Hx.
    + intros [->|[[<-|Hx] Hne]]; [left; reflexivity|simpl in Hne; congruence|right; exact Hx].
  - destruct (Z.eqb_spec q p); [congruence|].
    destruct (IH Hr Hg) as [r' [Hu Hin]]. rewrite Hu. eexists; split; [reflexivity|].
    intros x. simpl. rewrite Hin. split.
    + intros [<-|[->|[Hx Hx']]]; [right; split; [left; reflexivity|simpl; congruence]|left; reflexivity|].
      right; split; [right; exact Hx|exact Hx'].
    + intros [->|[[<-|Hx] Hx']]; [right; left; reflexivity|left; reflexivity|].
      right; right; split; assumption.
Qed.

Lemma add_system_spec s p w :
  SysInv (scene w) ->
  fst (add_system s p w) = Ok tt /\
  (forall q d, q <> p ->
     In (q, d) (_systems (scene (snd (add_system s p w)))) <-> In (q, d) (_systems (scene w))) /\
  (forall d, In (p, d) (_systems (scene (snd (add_system s p w)))) <->
     d = match d_get (_systems (scene w)) p with
         | Some d0 => d_set d0 (s_cls s) s
         | None => [(s_cls s, s)]
         end).
Proof.
  intros [Hs Hp]. unfold add_system, bind, gets.
  destruct (s_mem (_priorities (scene w)) p) eqn:Hm; simpl.
  - apply s_mem_In, Hp in Hm.
    assert (Hk : d_mem (_systems (scene w)) p = true) by (apply d_keys_In, Hm).
    destruct (proj1 (d_mem_get _ _) Hk) as [d0 Hd0]. rewrite Hd0.
    destruct (update_first_bucket_In p (fun system_dict => d_set system_dict (s_cls s) s)
                (systems_of w) d0 (StronglySorted_lt_NoDup _ Hs) Hd0) as [ss' [Hu Hin]].
    rewrite Hu. simpl. split; [reflexivity|]. split.
    + intros q d Hne. rewrite Hin. split; [intros [H|[H _]]; [congruence|exact H]|].
      intros H. right. split; [exact H|exact Hne].
    + intros d. rewrite Hin. split; [intros [H|[_ H]]; [congruence|simpl in H; congruence]|].
      intros ->. left. reflexivity.
  - assert (Hn : ~ In p (map fst (_systems (scene w)))).
    { intros H. apply Hp, s_mem_In in H. congruence. }
    rewrite (d_get_notin _ _ Hn). split; [reflexivity|]. split.
    + intros q d Hne. rewrite insort_In_pair. split; [intros [H|H]; [congruence|exact H]|tauto].
    + intros d. rewrite insort_In_pair. split; [|intros ->; left; reflexivity].
      intros [H|H]; [congruence|]. exfalso. apply Hn. change p with (fst (p, d)). apply in_map, H.
Qed.

(** X12.  In any scene built from a new Scene by any operations,
    [add_system(s, p)] returns and changes only the bucket of priority [p]:
    if there was one, with dict [d0], its dict becomes [d0] with
    [type(s)] set to [s] (a new type goes last, so systems of one priority
    run in the order they were first added; a system of a type already
    there replaces it in place); otherwise a new bucket [{type(s): s}] is
    inserted at priority [p]. *)
Theorem add_system_bucket ops s p :
  fst (add_system s p (run_ops ops init_world)) = Ok tt /\
  (forall q d, q <> p ->
     In (q, d) (_systems (scene (snd (add_system s p (run_ops ops init_world))))) <->
     In (q, d) (_systems (scene (run_ops ops init_world)))) /\
  (forall d, In (p, d) (_systems (scene (snd (add_system s p (run_ops ops init_world))))) <->
     d = match d_get (_systems (scene (run_ops ops init_world))) p with
         | Some d0 => d_set d0 (s_cls s) s
         | None => [(s_cls s, s)]
         end).
Proof. apply add_system_spec, run_ops_SysInv, SysInv_init. Qed.

Lemma find_all_false {A} (f : A -> bool) l : (forall x, In x l -> f x = false) -> find f l = None.
Proof.
  intros H. destruct (find f l) as [x|] eqn:Hf; [|reflexivity].
  apply find_some in Hf as [Hin Hx]. rewrite (H x Hin) in Hx. discriminate.
Qed.

(** X13.  In any world, [del_system(T)] never removes a bucket or a priority,
    even when it empties a bucket (a later [add_system] at that priority
    reuses the empty bucket), and when no bucket holds a system of type [T]
    it raises [MissingSystem] and changes nothing. *)
Theorem del_system_keeps_buckets t w :
  map fst (_systems (scene (snd (del_system t w)))) = map fst (_systems (scene w)) /\
  _priorities (scene (snd (del_system t w))) = _priorities (scene w) /\
  ((forall p d, In (p, d) (_systems (scene w)) -> d_mem d t = false) ->
   del_system t w = (Err MissingSystem, w)).
Proof.
  split; [|split].
  - unfold del_system, bind, gets, raise.
    destruct (find _ (systems_of w)) as [[priority ?]|]; simpl; [|reflexivity].
    destruct (py_index _ priority) as [i|]; simpl; [|reflexivity].
    destruct (nth_error (systems_of w) i) as [[p d]|] eqn:Hn; simpl; [|reflexivity].
    destruct (d_mem d t); simpl; [|reflexivity].
    apply (list_set_keys _ _ _ _ (d_del d t)) in Hn. exact Hn.
  - unfold del_system, bind, gets, raise.
    destruct (find _ (systems_of w)) as [[priority ?]|]; simpl; [|reflexivity].
    destruct (py_index _ priority) as [i|]; simpl; [|reflexivity].
    destruct (nth_error (systems_of w) i) as [[p d]|]; simpl; [|reflexivity].
    destruct (d_mem d t); reflexivity.
  - intros H. unfold del_system, bind, gets.
    rewrite find_all_false; [reflexivity|]. intros [p d] Hin. apply (H p d Hin).
Qed.

(** ** The [Singleton] metaclass: distinct classes *)

(** X14.  For two different Singleton classes constructed one after the
    other after any history, the two instances are different objects, and
    assigning an attribute through the first never changes what is read
    through the second. *)
Theorem singleton_distinct_classes construct ops c1 c2 args1 args2 l1 l2 r1 r2 :
  singleton_call construct c1 args1 (sruns construct ops init_registry) = (Ok l1, r1) ->
  singleton_call construct c2 args2 r1 = (Ok l2, r2) ->
  c1 <> c2 ->
  l1 <> l2 /\ (forall a v b, getattr l2 b (setattr l1 a v r2) = getattr l2 b r2).
Proof.
  intros H1 H2 Hne.
  pose proof (sruns_RInv construct ops init_registry RInv_init) as HR0.
  assert (HR1 : RInv r1).
  { change r1 with (snd (Ok l1, r1)). rewrite <- H1. apply singleton_call_RInv, HR0. }
  assert (HR2 : RInv r2).
  { change r2 with (snd (Ok l2, r2)). rewrite <- H2. apply singleton_call_RInv, HR1. }
  assert (Hi1 : d_get (_instances r2) c1 = Some l1).
  { change r2 with (snd (Ok l2, r2)). rewrite <- H2.
    apply (srun_instance construct (SCall c2 args2)), (singleton_call_instance _ _ _ _ _ _ H1). }
  pose proof (singleton_call_instance _ _ _ _ _ _ H2) as Hi2.
  destruct (rinv_some _ HR2 c1 l1 Hi1) as [_ [o1 [Ho1 Hc1]]].
  destruct (rinv_some _ HR2 c2 l2 Hi2) as [_ [o2 [Ho2 Hc2]]].
  assert (Hl : l1 <> l2) by (intros ->; congruence).
  split; [exact Hl|]. intros a v b. unfold getattr. rewrite setattr_objects, setattr_get, Ho2.
  destruct (Nat.eqb_spec l2 l1); [congruence|reflexivity].
Qed.

Lemma singleton_distinct_classes_witness :
  0%nat <> 1%nat /\
  (forall a v b, getattr 1 b (setattr 0 a v (mkRegistry [(3, 0); (4, 1)]
                                              [(0, mkObj 3 []); (1, mkObj 4 [])] 2)) =
                 getattr 1 b (mkRegistry [(3, 0); (4, 1)] [(0, mkObj 3 []); (1, mkObj 4 [])] 2)).
Proof.
  apply (singleton_distinct_classes (fun _ _ => Ok []) [] 3 4 [] [] 0 1
           (mkRegistry [(3, 0)] [(0, mkObj 3 [])] 1)); [reflexivity|reflexivity|lia].
Defined.

(** ** [add_systems] once a priority is bound *)

Lemma add_systems_loop_bound p L w :
  SysInv (scene w) ->
  fst (add_systems_loop (Some p) L w) = Ok tt /\
  SysInv (scene (snd (add_systems_loop (Some p) L w))).
Proof.
  revert p w; induction L as [|[s arg] rest IH]; intros p w H; [split; [reflexivity|exact H]|].
  cbn [add_systems_loop].
  set (q := match arg with Some p' => p' | None => p end).
  assert (Hq : match arg with Some p' => Some p' | None => Some p end = Some q)
    by (unfold q; destruct arg; reflexivity).
  rewrite Hq.
  destruct (add_system s q w) as [r w1] eqn:Ha.
  destruct (add_system_spec s q w H) as [Hok _]. rewrite Ha in Hok. simpl in Hok. subst r.
  assert (H1 : SysInv (scene w1)).
  { pose proof (add_system_SysInv s q w H) as H1. rewrite Ha in H1. exact H1. }
  rewrite (bind_ok _ _ _ _ _ Ha). apply IH, H1.
Qed.

Lemma add_systems_loop_carry p L w :
  add_systems_loop (Some p) L w =
  for_ (carry_priorities p L) (fun '(s, q) => add_system s q) w.
Proof.
  revert p w; induction L as [|[s arg] rest IH]; intros p w; [reflexivity|].
  cbn [add_systems_loop carry_priorities for_].
  set (q := match arg with Some p' => p' | None => p end).
  assert (Hq : match arg with Some p' => Some p' | None => Some p end = Some q)
    by (unfold q; destruct arg; reflexivity).
  rewrite Hq. unfold bind. destruct (add_system s q w) as [[[]|x] w1]; [apply IH|reflexivity].
Qed.

(** X15.  In any scene built from a new Scene by any operations,
    [add_systems] whose first entry carries a priority never raises and is
    the sequence of [add_system] calls in which each entry without a
    priority gets the last priority given before it; the buckets stay sorted
    by strictly increasing priority with [_priorities] the set of their
    priorities. *)
Theorem add_systems_first_priority ops s p rest :
  fst (add_systems ((s, Some p) :: rest) (run_ops ops init_world)) = Ok tt /\
  SysInv (scene (snd (add_systems ((s, Some p) :: rest) (run_ops ops init_world)))) /\
  add_systems ((s, Some p) :: rest) (run_ops ops init_world) =
    for_ (carry_priorities p ((s, Some p) :: rest)) (fun '(s0, q) => add_system s0 q)
         (run_ops ops init_world).
Proof.
  unfold add_systems.
  change (add_systems_loop None ((s, Some p) :: rest))
    with (add_systems_loop (Some p) ((s, Some p) :: rest)).
  split; [|split; [|apply add_systems_loop_carry]];
    apply add_systems_loop_bound, run_ops_SysInv, SysInv_init.
Qed.

(** ** [add_components] as a sequence of [add_component] calls *)

Lemma for_app {A} (l1 l2 : list A) (body : A -> M unit) w :
  for_ (l1 ++ l2) body w = (for_ l1 body;; for_ l2 body) w.
Proof.
  revert w; induction l1 as [|x r IH]; intros w; cbn [for_ app]; [reflexivity|].
  unfold bind. destruct (body x w) as [[[]|ex] w']; cbv beta iota; [|reflexivity].
  rewrite IH. reflexivity.
Qed.

(** X16.  [add_components(e, *cs1, *cs2)] is [add_components(e, *cs1)]
    followed by [add_components(e, *cs2)]; with no components it does
    nothing, even for an unregistered entity; with at least one component
    and an unregistered entity it raises [MissingEntity] and changes
    nothing. *)
Theorem add_components_app e cs1 cs2 w :
  add_components e (cs1 ++ cs2) w = (add_components e cs1;; add_components e cs2) w /\
  add_components e [] w = (Ok tt, w) /\
  (d_get (_entities (scene w)) e = None ->
   forall c cs, add_components e (c :: cs) w = (Err MissingEntity, w)).
Proof.
  split; [apply for_app|split; [reflexivity|]].
  intros Hn c cs. unfold add_components. cbn [for_]. unfold add_component.
  unfold bind at 1 2. unfold entities_getitem at 1. rewrite Hn. reflexivity.
Qed.

(** ** Creating and then deleting an entity *)

Lemma assoc_ext {K V} `{EqDec K} (l1 l2 : list (K * V)) :
  map fst l1 = map fst l2 -> NoDup (map fst l1) ->
  (forall k, d_get l1 k = d_get l2 k) -> l1 = l2.
Proof.
  revert l2; induction l1 as [|[k1 v1] r1 IH]; intros [|[k2 v2] r2]; simpl;
    intros Hk Hnd Hg; try discriminate; [reflexivity|].
  injection Hk as <- Hk. inversion Hnd as [|? ? Hn1 Hnd1]; subst.
  pose proof (Hg k1) as Hv. destruct (eq_dec k1 k1) as [_|]; [|congruence].
  injection Hv as <-. f_equal. apply IH; [exact Hk|exact Hnd1|].
  intros k. destruct (eq_dec k k1) as [->|Hne].
  - rewrite (d_get_notin r1 k1 Hn1). rewrite (d_get_notin r2 k1); [reflexivity|].
    rewrite <- Hk. exact Hn1.
  - specialize (Hg k). destruct (eq_dec k k1); [congruence|exact Hg].
Qed.

Lemma filter_neq_notin (l : list Z) e : ~ In e l -> filter (fun k => negb (Z.eqb k e)) l = l.
Proof.
  induction l as [|k r IH]; simpl; intros Hn; [reflexivity|].
  destruct (Z.eqb_spec k e); [tauto|]. simpl. rewrite IH; tauto.
Qed.

(** X17.  In any scene built from a new Scene by operations that only
    create new entities, creating a new entity [e] with components [cs]
    and then deleting it both return normally and give back exactly the
    original entity index and the original entity set of every component
    type. *)
Theorem create_delete_roundtrip ops e cs :
  ops_fresh ops init_world = true ->
  d_get (_entities (scene (run_ops ops init_world))) e = None ->
  fst (create_entity e cs (run_ops ops init_world)) = Ok e /\
  fst (del_entity e (snd (create_entity e cs (run_ops ops init_world)))) = Ok tt /\
  _entities (scene (snd (del_entity e (snd (create_entity e cs (run_ops ops init_world)))))) =
    _entities (scene (run_ops ops init_world)) /\
  (forall t x,
     In x (comp_set (scene (snd (del_entity e (snd (create_entity e cs (run_ops ops init_world)))))) t) <->
     In x (comp_set (scene (run_ops ops init_world)) t)).
Proof.
  intros Hf Hn. pose proof (run_ops_Inv ops init_world Inv_init Hf) as HI.
  set (w := run_ops ops init_world) in *. clearbody w.
  set (w1 := snd (entities_setitem e [] w)).
  assert (Hs : entities_setitem e [] w = (Ok tt, w1)) by reflexivity.
  assert (Hd1 : d_get (_entities (scene w1)) e = Some []).
  { unfold w1; simpl. rewrite d_get_set. destruct (eq_dec e e); [reflexivity|congruence]. }
  destruct (add_components_spec e cs w1 [] Hd1) as [w2 [H2 [Hk2 [Hg2 [Ho2 _]]]]].
  assert (Hc : create_entity e cs w = (Ok e, w2)).
  { rewrite create_entity_unfold, (bind_ok _ _ _ _ _ Hs), (bind_ok _ _ _ _ _ H2). reflexivity. }
  assert (HI2 : Inv (scene w2)).
  { pose proof (create_entity_Inv e cs w HI Hn) as HI2. rewrite Hc in HI2. exact HI2. }
  destruct (del_entity_spec e w2 _ HI2 Hg2) as [w3 [Hdel [_ [_ [_ [He3 _]]]]]].
  assert (HI3 : Inv (scene w3)).
  { pose proof (del_entity_Inv e w2 HI2) as HI3. rewrite Hdel in HI3. exact HI3. }
  rewrite Hc. simpl snd. rewrite Hdel. simpl.
  assert (Heq : _entities (scene w3) = _entities (scene w)).
  { apply assoc_ext.
    - change (d_keys (_entities (scene w3)) = d_keys (_entities (scene w))).
      rewrite He3, d_keys_del, Hk2. unfold w1; simpl. unfold d_set, d_mem. rewrite Hn.
      unfold d_keys. rewrite map_app, filter_app. simpl. rewrite Z.eqb_refl, app_nil_r.
      apply filter_neq_notin. intros Hk. apply (proj1 (d_keys_In _ e)) in Hk.
      unfold d_mem in Hk. rewrite Hn in Hk. discriminate.
    - apply (inv_entities_nodup _ HI3).
    - intros k. rewrite He3, d_get_del. destruct (eq_dec k e) as [->|Hne]; [symmetry; exact Hn|].
      rewrite (Ho2 k Hne). unfold w1; simpl. rewrite d_get_set.
      destruct (eq_dec k e); [congruence|reflexivity]. }
  split; [reflexivity|split; [reflexivity|split; [exact Heq|]]].
  intros t x. rewrite <- (inv_index _ HI3), <- (inv_index _ HI). unfold holds. rewrite Heq.
  reflexivity.
Qed.

Lemma create_delete_roundtrip_witness :
  fst (create_entity 40 [cA; cB] (run_ops ops_abc init_world)) = Ok 40%Z /\
  fst (del_entity 40 (snd (create_entity 40 [cA; cB] (run_ops ops_abc init_world)))) = Ok tt /\
  _entities (scene (snd (del_entity 40 (snd (create_entity 40 [cA; cB] (run_ops ops_abc init_world)))))) =
    _entities (scene (run_ops ops_abc init_world)) /\
  (forall t x,
     In x (comp_set (scene (snd (del_entity 40 (snd (create_entity 40 [cA; cB]
                                                      (run_ops ops_abc init_world)))))) t) <->
     In x (comp_set (scene (run_ops ops_abc init_world)) t)).
Proof.
  apply (create_delete_roundtrip ops_abc 40 [cA; cB]); vm_compute; reflexivity.
Defined.

(** ** [del_system] when priorities are positions *)

Lemma positional_from_nth n ss i q d :
  positional_from n ss = true -> nth_error ss i = Some (q, d) -> q = Z.of_nat (n + i).
Proof.
  revert n i; induction ss as [|[q0 d0] r IH]; intros n i Hp Hn; [destruct i; discriminate|].
  simpl in Hp. apply andb_true_iff in Hp as [Hq Hr]. apply Z.eqb_eq in Hq.
  destruct i as [|i]; simpl in Hn.
  - injection Hn as -> ->. rewrite Hq. f_equal. lia.
  - rewrite (IH (S n) i Hr Hn). f_equal. lia.
Qed.

(** X18.  When every bucket's priority equals its position in [_systems]
    (priorities 0, 1, 2, ... with no gap), [del_system(T)] returns normally
    whenever some bucket holds a system of type [T], and its only effect is
    to delete [T] from the first bucket holding it: the bucket at index
    [priority] is that bucket. *)
Theorem del_system_positional t w p d :
  positional_from 0 (systems_of w) = true ->
  find (fun b => d_mem (snd b) t) (systems_of w) = Some (p, d) ->
  nth_error (systems_of w) (Z.to_nat p) = Some (p, d) /\ d_mem d t = true /\
  del_system t w =
    (Ok tt, snd (set_systems (list_set (systems_of w) (Z.to_nat p) (p, d_del d t)) w)).
Proof.
  intros Hp Hf.
  destruct (find_some _ _ Hf) as [Hin Hm]. simpl in Hm.
  destruct (In_nth_error _ _ Hin) as [i Hi].
  pose proof (positional_from_nth 0 _ i p d Hp Hi) as ->. change (0 + i)%nat with i in *.
  rewrite Nat2Z.id. split; [exact Hi|split; [exact Hm|]].
  assert (Hlt : (i < length (systems_of w))%nat) by (apply nth_error_Some; congruence).
  assert (Hpy : py_index (length (systems_of w)) (Z.of_nat i) = Some i).
  { unfold py_index. destruct (Z.leb_spec 0 (Z.of_nat i)); [|lia].
    destruct (Z.ltb_spec (Z.of_nat i) (Z.of_nat (length (systems_of w)))); [|lia].
    rewrite Nat2Z.id. reflexivity. }
  unfold del_system, bind, gets. rewrite Hf. cbv beta iota. rewrite Hpy. cbv beta iota.
  rewrite Hi. cbv beta iota. rewrite Hm. reflexivity.
Qed.

Lemma del_system_positional_witness :
  nth_error (systems_of (run_ops [OpAddSystem (mkSystem 1 1) 0; OpAddSystem (mkSystem 2 2) 1;
                                  OpAddSystem (mkSystem 3 3) 1] init_world)) (Z.to_nat 1) =
    Some (1%Z, [(2%nat, mkSystem 2 2); (3%nat, mkSystem 3 3)]) /\
  d_mem [(2%nat, mkSystem 2 2); (3%nat, mkSystem 3 3)] 3 = true /\
  del_system 3 (run_ops [OpAddSystem (mkSystem 1 1) 0; OpAddSystem (mkSystem 2 2) 1;
                          OpAddSystem (mkSystem 3 3) 1] init_world) =
    (Ok tt, snd (set_systems
      (list_set (systems_of (run_ops [OpAddSystem (mkSystem 1 1) 0; OpAddSystem (mkSystem 2 2) 1;
                                      OpAddSystem (mkSystem 3 3) 1] init_world))
                (Z.to_nat 1) (1%Z, d_del [(2%nat, mkSystem 2 2); (3%nat, mkSystem 3 3)] 3))
      (run_ops [OpAddSystem (mkSystem 1 1) 0; OpAddSystem (mkSystem 2 2) 1;
                OpAddSystem (mkSystem 3 3) 1] init_world))).
Proof.
  apply del_system_positional; vm_compute; reflexivity.
Defined.

(** ** Feeding [get_entities_with] to [get_components_from] *)



